(** * Product store with Kafka events: a shallow embedding

    The development follows the TypeScript sources of the NestJS demo:

    - [ProductsService] (products.service.ts): an in-memory [Map] of
      products; every mutation is followed by [KafkaProducerService.emit];
    - [KafkaProducerService] (kafka-producer.service.ts): wraps the event
      in an envelope, serialises it with [JSON.stringify] and sends it with
      the event type as message key;
    - [KafkaConsumerService] (kafka-consumer.service.ts): parses each
      received value with [JSON.parse] and logs it.

    JavaScript built-ins the services rely on are modelled first
    (numbers and their decimal printing, JSON texts, [Date] and its ISO
    form), then the effects (clock, uuid generator, broker, console) as a
    state-and-exception monad, then the three services. The properties
    come in the same order: JSON texts, the store, the producer and the
    consumer, then sequences of requests and the stream of events they
    publish.

    Modelling choices, stated once:
    - a string is the sequence of bytes of its UTF-8 encoding, which is
      also what travels on the topic;
    - a finite non-zero number is represented by the decimal that
      [Number::toString] prints for it: its significant digits [s]
      (no leading or trailing zero) and the position [n] of the decimal
      point, standing for [0.s * 10^n]; binary rounding of literals that
      are not of that form is outside the model;
    - asynchronous methods are run to completion one after the other: an
      [await] on a rejected promise is a thrown exception. *)

From Stdlib Require Import ZArith Lia Ascii String DecimalN DecimalFacts.
From stdpp Require Import base option list strings gmap.

Local Open Scope Z_scope.
#[local] Set Warnings "-clear-no-such-hyp".

(** ** Decimal digits *)

Inductive digit : Set :=
  d0 | d1 | d2 | d3 | d4 | d5 | d6 | d7 | d8 | d9.

Global Instance digit_eq_dec : EqDecision digit.
Proof. solve_decision. Defined.

Definition digit_char (d : digit) : ascii :=
  match d with
  | d0 => "0" | d1 => "1" | d2 => "2" | d3 => "3" | d4 => "4"
  | d5 => "5" | d6 => "6" | d7 => "7" | d8 => "8" | d9 => "9"
  end%char.

Definition char_digit (c : ascii) : option digit :=
  match c with
  | "0" => Some d0 | "1" => Some d1 | "2" => Some d2 | "3" => Some d3
  | "4" => Some d4 | "5" => Some d5 | "6" => Some d6 | "7" => Some d7
  | "8" => Some d8 | "9" => Some d9 | _ => None
  end%char.

Definition digit_of_Z (n : Z) : digit :=
  match n with
  | 0 => d0 | 1 => d1 | 2 => d2 | 3 => d3 | 4 => d4
  | 5 => d5 | 6 => d6 | 7 => d7 | 8 => d8 | _ => d9
  end.

Fixpoint digits_string (ds : list digit) : string :=
  match ds with
  | [] => ""
  | d :: r => String (digit_char d) (digits_string r)
  end.

(** Conversion with the Standard Library's decimal numerals, used to print
    and read non-negative integers (exponents, partition numbers). *)
Fixpoint digits_of_uint (u : Decimal.uint) : list digit :=
  match u with
  | Decimal.Nil => []
  | Decimal.D0 r => d0 :: digits_of_uint r
  | Decimal.D1 r => d1 :: digits_of_uint r
  | Decimal.D2 r => d2 :: digits_of_uint r
  | Decimal.D3 r => d3 :: digits_of_uint r
  | Decimal.D4 r => d4 :: digits_of_uint r
  | Decimal.D5 r => d5 :: digits_of_uint r
  | Decimal.D6 r => d6 :: digits_of_uint r
  | Decimal.D7 r => d7 :: digits_of_uint r
  | Decimal.D8 r => d8 :: digits_of_uint r
  | Decimal.D9 r => d9 :: digits_of_uint r
  end.

Fixpoint uint_of_digits (ds : list digit) : Decimal.uint :=
  match ds with
  | [] => Decimal.Nil
  | d :: r =>
      let u := uint_of_digits r in
      match d with
      | d0 => Decimal.D0 u | d1 => Decimal.D1 u | d2 => Decimal.D2 u
      | d3 => Decimal.D3 u | d4 => Decimal.D4 u | d5 => Decimal.D5 u
      | d6 => Decimal.D6 u | d7 => Decimal.D7 u | d8 => Decimal.D8 u
      | d9 => Decimal.D9 u
      end
  end.

Definition N_digits (n : N) : list digit := digits_of_uint (N.to_uint n).
Definition digits_N (ds : list digit) : N := N.of_uint (uint_of_digits ds).

(** ** JavaScript numbers *)

Inductive number : Set :=
  | NaN
  | Infinity (neg : bool)
  | Zero (neg : bool)
  | Finite (neg : bool) (s : list digit) (n : Z).

Global Instance number_eq_dec : EqDecision number.
Proof. solve_decision. Defined.

Definition is_finite (x : number) : bool :=
  match x with
  | NaN | Infinity _ => false
  | _ => true
  end.

(** The digits of a finite non-zero number are its shortest decimal form:
    there is at least one, the first and the last are not zero. *)
Definition wf_number (x : number) : Prop :=
  match x with
  | Finite _ s _ => s ≠ [] ∧ head s ≠ Some d0 ∧ last s ≠ Some d0
  | _ => True
  end.

Definition zeros (n : nat) : list digit := replicate n d0.

(** [Number::toString(x)] in radix 10 (ECMA-262, 6.1.6.1.20) for a
    positive finite [x] with digits [s], [k] of them, and decimal point at
    [n]: steps 6 to 10 of the algorithm. *)
Definition decimal_string (s : list digit) (n : Z) : string :=
  let k := Z.of_nat (length s) in
  if bool_decide (k ≤ n ≤ 21) then
    digits_string (s ++ zeros (Z.to_nat (n - k)))
  else if bool_decide (0 < n ≤ 21) then
    digits_string (take (Z.to_nat n) s) +:+ "." +:+
    digits_string (drop (Z.to_nat n) s)
  else if bool_decide (-6 < n ≤ 0) then
    "0." +:+ digits_string (zeros (Z.to_nat (- n)) ++ s)
  else
    let e := n - 1 in
    let sign := if bool_decide (e < 0) then "-" else "+" in
    let mantissa :=
      match s with
      | [] => ""
      | [d] => digits_string [d]
      | d :: rest => digits_string [d] +:+ "." +:+ digits_string rest
      end in
    mantissa +:+ "e" +:+ sign +:+ digits_string (N_digits (Z.to_N (Z.abs e))).

Definition Number_toString (x : number) : string :=
  match x with
  | NaN => "NaN"
  | Infinity neg => if neg then "-Infinity" else "Infinity"
  | Zero _ => "0"
  | Finite neg s n =>
      if neg then "-" +:+ decimal_string s n else decimal_string s n
  end.

(** Reading a JSON number literal (ECMA-404): an optional minus sign; an
    integer part, either a single 0 or a non-zero digit followed by
    digits; an optional fraction, a point and at least one digit; an
    optional exponent, e or E, an optional sign and at least one digit. *)
Fixpoint take_digits (s : string) : list digit * string :=
  match s with
  | "" => ([], "")
  | String c r =>
      match char_digit c with
      | Some d => let '(ds, r') := take_digits r in (d :: ds, r')
      | None => ([], s)
      end
  end.

Definition parse_int (s : string) : option (list digit * string) :=
  match s with
  | "" => None
  | String c r =>
      if bool_decide (c = "0"%char) then Some ([d0], r)
      else
        match take_digits s with
        | ([], _) => None
        | (ds, r') => Some (ds, r')
        end
  end.

Definition parse_frac (s : string) : option (list digit * string) :=
  match s with
  | "" => Some ([], "")
  | String c r =>
      if bool_decide (c = "."%char) then
        match take_digits r with
        | ([], _) => None
        | (ds, r') => Some (ds, r')
        end
      else Some ([], s)
  end.

Definition parse_exp_digits (neg : bool) (s : string) : option (Z * string) :=
  match take_digits s with
  | ([], _) => None
  | (ds, r) =>
      let v := Z.of_N (digits_N ds) in
      Some (if neg then - v else v, r)
  end.

Definition parse_exp (s : string) : option (Z * string) :=
  match s with
  | "" => Some (0, "")
  | String c r =>
      if bool_decide (c = "e"%char ∨ c = "E"%char) then
        match r with
        | "" => None
        | String sign r1 =>
            if bool_decide (sign = "-"%char) then parse_exp_digits true r1
            else if bool_decide (sign = "+"%char) then parse_exp_digits false r1
            else parse_exp_digits false r
        end
      else Some (0, s)
  end.

Fixpoint strip_zeros (ds : list digit) : list digit :=
  match ds with
  | d0 :: r => strip_zeros r
  | _ => ds
  end.

Definition rstrip_zeros (ds : list digit) : list digit :=
  reverse (strip_zeros (reverse ds)).

(** The number denoted by a literal with integer digits [ip], fraction
    digits [fp] and exponent [e]: leading zeros move the decimal point,
    trailing zeros are dropped. *)
Definition make_number (neg : bool) (ip fp : list digit) (e : Z) : number :=
  let all := ip ++ fp in
  let lead := strip_zeros all in
  let n := Z.of_nat (length ip) + e - Z.of_nat (length all - length lead) in
  match rstrip_zeros lead with
  | [] => Zero neg
  | s => Finite neg s n
  end.

Definition parse_unsigned (neg : bool) (s : string) : option (number * string) :=
  '(ip, s2) ← parse_int s;
  '(fp, s3) ← parse_frac s2;
  '(e, s4) ← parse_exp s3;
  Some (make_number neg ip fp e, s4).

Definition parse_number (s : string) : option (number * string) :=
  match s with
  | "" => None
  | String c r =>
      if bool_decide (c = "-"%char) then parse_unsigned true r
      else parse_unsigned false s
  end.

(** ** JSON strings *)

Definition dquote : ascii := "034"%char.
Definition backslash : ascii := "\"%char.
Definition newline : ascii := "010"%char.

Definition hex_digit (n : N) : ascii :=
  match n with
  | 0 => "0" | 1 => "1" | 2 => "2" | 3 => "3" | 4 => "4" | 5 => "5"
  | 6 => "6" | 7 => "7" | 8 => "8" | 9 => "9" | 10 => "a" | 11 => "b"
  | 12 => "c" | 13 => "d" | 14 => "e" | _ => "f"
  end%N%char.

Definition hex_val (c : ascii) : option N :=
  match char_digit c with
  | Some d => Some (digits_N [d])
  | None =>
      match c with
      | "a" | "A" => Some 10 | "b" | "B" => Some 11 | "c" | "C" => Some 12
      | "d" | "D" => Some 13 | "e" | "E" => Some 14 | "f" | "F" => Some 15
      | _ => None
      end%N%char
  end.

(** [QuoteJSONString] (ECMA-262, 25.5.2.3), one character at a time. *)
Definition quote_char (c : ascii) : string :=
  match c with
  | "008"%char => "\b"
  | "009"%char => "\t"
  | "010"%char => "\n"
  | "012"%char => "\f"
  | "013"%char => "\r"
  | "034"%char => String backslash (String dquote "")
  | "\"%char => "\\"
  | _ =>
      let n := N_of_ascii c in
      if (n <? 32)%N then
        "\u00" +:+ String (hex_digit (n / 16)) (String (hex_digit (n mod 16)) "")
      else String c ""
  end.

Fixpoint quote_body (s : string) : string :=
  match s with
  | "" => ""
  | String c r => quote_char c +:+ quote_body r
  end.

Definition QuoteJSONString (s : string) : string :=
  String dquote (quote_body s +:+ String dquote "").

Definition hex4 (a b c d : ascii) : option N :=
  x ← hex_val a; y ← hex_val b; z ← hex_val c; w ← hex_val d;
  Some (((x * 16 + y) * 16 + z) * 16 + w)%N.

(** UTF-8 bytes of a code point below [0x110000]. *)
Definition utf8_encode (cp : N) : string :=
  let byte n := ascii_of_N n in
  (if cp <? 0x80 then String (byte cp) ""
   else if cp <? 0x800 then
     String (byte (0xC0 + cp / 0x40)) (String (byte (0x80 + cp mod 0x40)) "")
   else if cp <? 0x10000 then
     String (byte (0xE0 + cp / 0x1000))
       (String (byte (0x80 + (cp / 0x40) mod 0x40))
          (String (byte (0x80 + cp mod 0x40)) ""))
   else
     String (byte (0xF0 + cp / 0x40000))
       (String (byte (0x80 + (cp / 0x1000) mod 0x40))
          (String (byte (0x80 + (cp / 0x40) mod 0x40))
             (String (byte (0x80 + cp mod 0x40)) ""))))%N.

Definition simple_escape (c : ascii) : option ascii :=
  match c with
  | "034" => Some "034" | "\" => Some "\" | "/" => Some "/"
  | "b" => Some "008" | "f" => Some "012" | "n" => Some "010"
  | "r" => Some "013" | "t" => Some "009"
  | _ => None
  end%char.

Definition is_high_surrogate (u : N) : bool := (0xD800 <=? u)%N && (u <? 0xDC00)%N.
Definition is_low_surrogate (u : N) : bool := (0xDC00 <=? u)%N && (u <? 0xE000)%N.
Definition surrogate_pair (hi lo : N) : N :=
  (0x10000 + (hi - 0xD800) * 0x400 + (lo - 0xDC00))%N.

Definition prepend (pre : string) (res : option (string * string)) :
    option (string * string) :=
  '(t, rest) ← res; Some (pre +:+ t, rest).

(** The characters of a JSON string after its opening quote, up to and
    including the closing quote; returns the string denoted and the rest
    of the text. An escaped high surrogate directly followed by an escaped
    low surrogate denotes one code point. *)
Fixpoint parse_string_body (s : string) : option (string * string) :=
  match s with
  | "" => None
  | String c r =>
      if bool_decide (c = dquote) then Some ("", r)
      else if bool_decide (c = backslash) then
        match r with
        | "" => None
        | String e r1 =>
            if bool_decide (e = "u"%char) then
              match r1 with
              | String h1 (String h2 (String h3 (String h4 r2))) =>
                  match hex4 h1 h2 h3 h4 with
                  | None => None
                  | Some u =>
                      if is_high_surrogate u then
                        match r2 with
                        | String b1 (String b2 (String l1 (String l2
                            (String l3 (String l4 r3))))) =>
                            match
                              (if bool_decide (b1 = backslash ∧ b2 = "u"%char)
                               then hex4 l1 l2 l3 l4 else None)
                            with
                            | Some l =>
                                if is_low_surrogate l then
                                  prepend (utf8_encode (surrogate_pair u l))
                                    (parse_string_body r3)
                                else
                                  prepend (utf8_encode u) (parse_string_body r2)
                            | None =>
                                prepend (utf8_encode u) (parse_string_body r2)
                            end
                        | _ => prepend (utf8_encode u) (parse_string_body r2)
                        end
                      else prepend (utf8_encode u) (parse_string_body r2)
                  end
              | _ => None
              end
            else
              match simple_escape e with
              | Some ch => prepend (String ch "") (parse_string_body r1)
              | None => None
              end
        end
      else if (N_of_ascii c <? 32)%N then None
      else prepend (String c "") (parse_string_body r)
  end.

(** ** JSON values and texts *)

#[local] Set Warnings "-register-all".

Inductive json : Set :=
  | JNull
  | JBool (b : bool)
  | JNumber (x : number)
  | JString (s : string)
  | JArray (l : list json)
  | JObject (m : list (string * json)).

Fixpoint join (sep : string) (l : list string) : string :=
  match l with
  | [] => ""
  | [x] => x
  | x :: r => x +:+ sep +:+ join sep r
  end.

(** The last step of [SerializeJSONArray] and [SerializeJSONObject]. *)
Definition wrap (opening closing gap indent stepback : string)
    (partial : list string) : string :=
  match partial with
  | [] => opening +:+ closing
  | _ =>
      if bool_decide (gap = "") then
        opening +:+ join "," partial +:+ closing
      else
        let nl := String newline "" in
        opening +:+ nl +:+ indent +:+
        join ("," +:+ nl +:+ indent) partial +:+ nl +:+ stepback +:+ closing
  end.

(** [SerializeJSONProperty] on a value that is already JSON data, with
    the indentation unit [gap] and the current indentation [indent]. *)
Fixpoint Serialize (gap indent : string) (j : json) : string :=
  match j with
  | JNull => "null"
  | JBool b => if b then "true" else "false"
  | JNumber x => if is_finite x then Number_toString x else "null"
  | JString s => QuoteJSONString s
  | JArray l =>
      wrap "[" "]" gap (indent +:+ gap) indent
        (map (Serialize gap (indent +:+ gap)) l)
  | JObject m =>
      wrap "{" "}" gap (indent +:+ gap) indent
        (map (λ kv, QuoteJSONString kv.1 +:+ ":" +:+
                    (if bool_decide (gap = "") then "" else " ") +:+
                    Serialize gap (indent +:+ gap) kv.2) m)
  end.

Definition is_ws (c : ascii) : bool :=
  match c with
  | " " | "009" | "010" | "013" => true
  | _ => false
  end%char.

Fixpoint skip_ws (s : string) : string :=
  match s with
  | "" => ""
  | String c r => if is_ws c then skip_ws r else s
  end.

Fixpoint strip_prefix (p s : string) : option string :=
  match p, s with
  | "", _ => Some s
  | String a p', String b s' =>
      if bool_decide (a = b) then strip_prefix p' s' else None
  | _, _ => None
  end.

(** Property keys that are array indices come first, in ascending order,
    when the properties of an object are enumerated. *)
Definition array_index (k : string) : option N :=
  match take_digits k with
  | (ds, "") =>
      match ds with
      | [] => None
      | [_] => Some (digits_N ds)
      | d0 :: _ => None
      | _ =>
          let i := digits_N ds in
          if (i <=? 4294967294)%N then Some i else None
      end
  | _ => None
  end.

Fixpoint has_key (k : string) (m : list (string * json)) : bool :=
  match m with
  | [] => false
  | (k', _) :: r => bool_decide (k = k') || has_key k r
  end.

Fixpoint set_key (k : string) (v : json) (m : list (string * json)) :
    list (string * json) :=
  match m with
  | [] => []
  | (k', v') :: r =>
      if bool_decide (k = k') then (k, v) :: r else (k', v') :: set_key k v r
  end.

Fixpoint insert_index (i : N) (k : string) (v : json)
    (m : list (string * json)) : list (string * json) :=
  match m with
  | [] => [(k, v)]
  | (k', v') :: r =>
      match array_index k' with
      | Some i' =>
          if (i' <? i)%N then (k', v') :: insert_index i k v r
          else (k, v) :: m
      | None => (k, v) :: m
      end
  end.

(** [CreateDataProperty] on the object [JSON.parse] is building: a key
    already present keeps its place and takes the new value. *)
Definition CreateDataProperty (m : list (string * json)) (k : string)
    (v : json) : list (string * json) :=
  if has_key k m then set_key k v m
  else
    match array_index k with
    | Some i => insert_index i k v m
    | None => m ++ [(k, v)]
    end.

Fixpoint parse_value (fuel : nat) (s : string) : option (json * string) :=
  match fuel with
  | O => None
  | S fuel =>
      match skip_ws s with
      | "" => None
      | String c r =>
          if bool_decide (c = "n"%char) then
            r' ← strip_prefix "ull" r; Some (JNull, r')
          else if bool_decide (c = "t"%char) then
            r' ← strip_prefix "rue" r; Some (JBool true, r')
          else if bool_decide (c = "f"%char) then
            r' ← strip_prefix "alse" r; Some (JBool false, r')
          else if bool_decide (c = dquote) then
            '(str, r') ← parse_string_body r; Some (JString str, r')
          else if bool_decide (c = "["%char) then
            match skip_ws r with
            | "" => None
            | String c' r' =>
                if bool_decide (c' = "]"%char) then Some (JArray [], r')
                else '(l, r'') ← parse_elements fuel r; Some (JArray l, r'')
            end
          else if bool_decide (c = "{"%char) then
            match skip_ws r with
            | "" => None
            | String c' r' =>
                if bool_decide (c' = "}"%char) then Some (JObject [], r')
                else '(m, r'') ← parse_members fuel r []; Some (JObject m, r'')
            end
          else
            '(x, r') ← parse_number (String c r); Some (JNumber x, r')
      end
  end
with parse_elements (fuel : nat) (s : string) : option (list json * string) :=
  match fuel with
  | O => None
  | S fuel =>
      '(v, r) ← parse_value fuel s;
      match skip_ws r with
      | "" => None
      | String c r' =>
          if bool_decide (c = ","%char) then
            '(l, r'') ← parse_elements fuel r'; Some (v :: l, r'')
          else if bool_decide (c = "]"%char) then Some ([v], r')
          else None
      end
  end
with parse_members (fuel : nat) (s : string) (acc : list (string * json)) :
    option (list (string * json) * string) :=
  match fuel with
  | O => None
  | S fuel =>
      match skip_ws s with
      | "" => None
      | String c r =>
          if bool_decide (c = dquote) then
            '(k, r1) ← parse_string_body r;
            match skip_ws r1 with
            | "" => None
            | String c1 r2 =>
                if bool_decide (c1 = ":"%char) then
                  '(v, r3) ← parse_value fuel r2;
                  let acc' := CreateDataProperty acc k v in
                  match skip_ws r3 with
                  | "" => None
                  | String c3 r4 =>
                      if bool_decide (c3 = ","%char) then
                        parse_members fuel r4 acc'
                      else if bool_decide (c3 = "}"%char) then Some (acc', r4)
                      else None
                  end
                else None
            end
          else None
      end
  end.

(** [JSON.parse(text)]: [None] stands for the [SyntaxError] it throws.
    Every recursive call of the parser is made after at least one
    character was read, so the length of the text bounds their number. *)
Definition JSON_parse (text : string) : option json :=
  match parse_value (S (String.length text)) text with
  | Some (j, rest) => if bool_decide (skip_ws rest = "") then Some j else None
  | None => None
  end.


(** *** Canonical JSON data *)

(** A text at which the reading of a run of digits stops. *)
Definition digits_stop (rest : string) : Prop :=
  match rest with
  | "" => True
  | String c _ => char_digit c = None
  end.

(** A text at which the reading of a number literal stops. *)
Definition number_stop (rest : string) : Prop :=
  match rest with
  | "" => True
  | String c _ =>
      char_digit c = None ∧ c ≠ "."%char ∧ c ≠ "e"%char ∧ c ≠ "E"%char
  end.

(** The numbers [JSON.stringify] writes as themselves: positive zero and
    the finite non-zero numbers in shortest form. *)
Definition printable_number (x : number) : Prop :=
  match x with
  | Zero false => True
  | Finite _ s _ => s ≠ [] ∧ head s ≠ Some d0 ∧ last s ≠ Some d0
  | _ => False
  end.

(** JSON data that [JSON.parse] gives back from its own text: printable
    numbers, and objects whose keys are distinct and are not array
    indices, so that they are enumerated in the order of the text. *)
Fixpoint canonical (j : json) : Prop :=
  match j with
  | JNumber x => printable_number x
  | JArray l =>
      (fix all (l : list json) : Prop :=
         match l with
         | [] => True
         | v :: r => canonical v ∧ all r
         end) l
  | JObject m =>
      NoDup m.*1 ∧ Forall (λ k, array_index k = None) m.*1 ∧
      (fix all (m : list (string * json)) : Prop :=
         match m with
         | [] => True
         | kv :: r => canonical kv.2 ∧ all r
         end) m
  | _ => True
  end.

(** The number of recursive calls the parser makes on the text of [j]. *)
Fixpoint json_size (j : json) : nat :=
  match j with
  | JArray l =>
      S ((fix sum (l : list json) : nat :=
            match l with
            | [] => O
            | v :: r => S (json_size v + sum r)
            end) l)
  | JObject m =>
      S ((fix sum (m : list (string * json)) : nat :=
            match m with
            | [] => O
            | kv :: r => S (json_size kv.2 + sum r)
            end) m)
  | _ => 1%nat
  end.

(** [JSON.stringify] with one argument, on JSON data. *)
Abbreviation print := (Serialize "" "").

Definition elements_size (l : list json) : nat :=
  foldr (λ v n, S (json_size v + n)) O l.

Definition members_size (m : list (string * json)) : nat :=
  foldr (λ kv n, S (json_size kv.2 + n)) O m.

(** The text of one member of an object. *)
Definition member_text (kv : string * json) : string :=
  QuoteJSONString kv.1 +:+ ":" +:+ print kv.2.

(** The parser gives [v] back from its text, whatever follows it. *)
Definition reads_back (v : json) : Prop :=
  ∀ fuel rest, (json_size v ≤ fuel)%nat → number_stop rest →
    parse_value fuel (print v +:+ rest) = Some (v, rest).

(** A successful parse needs no more fuel than the characters it read. *)
Definition fuel_bound {A} (parse : nat → string → option (A * string))
    (s : string) (a : A) (r : string) : Prop :=
  ∃ n, (1 ≤ n ∧ n + String.length r ≤ String.length s)%nat ∧
       ∀ f, (n ≤ f)%nat → parse f s = Some (a, r).

(** ** Reading parsed data *)

(** [[Get]] of a property that no built-in prototype defines (the consumer
    reads [type], [timestamp] and [payload]): an own property of an object,
    [undefined] on every other value. [None] is [undefined]. *)
Fixpoint own_property (k : string) (m : list (string * json)) : option json :=
  match m with
  | [] => None
  | (k', v) :: r => if bool_decide (k = k') then Some v else own_property k r
  end.

Definition Get (j : json) (k : string) : option json :=
  match j with
  | JObject m => own_property k m
  | _ => None
  end.

Fixpoint join_opt (sep : string) (l : list (option string)) : option string :=
  match l with
  | [] => Some ""
  | [x] => x
  | x :: r => a ← x; b ← join_opt sep r; Some (a +:+ sep +:+ b)
  end.

(** [ToString] of parsed data, as a template literal applies it; [None]
    is the [TypeError] of [OrdinaryToPrimitive]. An array is joined with
    commas, [null] elements printing as the empty string; an object prints
    through [Object.prototype.toString] unless an own property shadows
    [toString], and such a property is never callable. *)
Fixpoint ToString (j : json) : option string :=
  match j with
  | JNull => Some "null"
  | JBool b => Some (if b then "true" else "false")
  | JNumber x => Some (Number_toString x)
  | JString s => Some s
  | JArray l =>
      join_opt ","
        (map (λ v, match v with JNull => Some "" | _ => ToString v end) l)
  | JObject m => if has_key "toString" m then None else Some "[object Object]"
  end.

Definition ToString_opt (v : option json) : option string :=
  match v with
  | None => Some "undefined"
  | Some j => ToString j
  end.

(** ** Dates *)

(** A [Date] is its time value, milliseconds since the epoch. *)
Definition Date := Z.

Fixpoint pad (width : nat) (n : Z) : list digit :=
  match width with
  | O => []
  | S w => pad w (n / 10) ++ [digit_of_Z (n mod 10)]
  end.

(** Year, month and day of a day number counted from the epoch, in the
    proleptic Gregorian calendar. *)
Definition civil_from_days (z : Z) : Z * Z * Z :=
  let z := z + 719468 in
  let era := z / 146097 in
  let doe := z - era * 146097 in
  let yoe := (doe - doe / 1460 + doe / 36524 - doe / 146096) / 365 in
  let doy := doe - (365 * yoe + yoe / 4 - yoe / 100) in
  let mp := (5 * doy + 2) / 153 in
  let d := doy - (153 * mp + 2) / 5 + 1 in
  let m := if mp <? 10 then mp + 3 else mp - 9 in
  let y := yoe + era * 400 + (if m <=? 2 then 1 else 0) in
  (y, m, d).

(** [Date.prototype.toISOString]: [YYYY-MM-DDTHH:mm:ss.sssZ], the year
    with a sign and six digits outside 0..9999. *)
Definition toISOString (t : Date) : string :=
  let '(y, m, d) := civil_from_days (t / 86400000) in
  let ms := t mod 86400000 in
  let year :=
    if bool_decide (0 ≤ y ≤ 9999) then digits_string (pad 4 y)
    else (if y <? 0 then "-" else "+") +:+ digits_string (pad 6 (Z.abs y)) in
  year +:+ "-" +:+ digits_string (pad 2 m) +:+ "-" +:+ digits_string (pad 2 d)
  +:+ "T" +:+ digits_string (pad 2 (ms / 3600000))
  +:+ ":" +:+ digits_string (pad 2 (ms / 60000 mod 60))
  +:+ ":" +:+ digits_string (pad 2 (ms / 1000 mod 60))
  +:+ "." +:+ digits_string (pad 3 (ms mod 1000)) +:+ "Z".

(** ** Values handed to [JSON.stringify] *)

Inductive JsValue : Set :=
  | VUndefined
  | VNull
  | VBool (b : bool)
  | VNumber (x : number)
  | VString (s : string)
  | VDate (t : Date)
  | VArray (l : list JsValue)
  | VObject (m : list (string * JsValue)).

(** The JSON data [SerializeJSONProperty] writes for a value: a [Date]
    answers [toJSON] with its ISO string, a number that is not finite is
    written [null], negative zero is written [0], an [undefined] property
    is left out and an [undefined] element is written [null]. [None] is
    [undefined]: nothing is written. *)
Fixpoint toJSON (v : JsValue) : option json :=
  match v with
  | VUndefined => None
  | VNull => Some JNull
  | VBool b => Some (JBool b)
  | VNumber x =>
      Some (match x with
            | NaN | Infinity _ => JNull
            | Zero _ => JNumber (Zero false)
            | Finite _ _ _ => JNumber x
            end)
  | VString s => Some (JString s)
  | VDate t => Some (JString (toISOString t))
  | VArray l => Some (JArray (map (λ e, default JNull (toJSON e)) l))
  | VObject m =>
      Some (JObject (omap (λ kv, match toJSON kv.2 with
                                 | Some j => Some (kv.1, j)
                                 | None => None
                                 end) m))
  end.

(** [JSON.stringify(value, null, gap)]; [gap] is the empty string when
    the call has one argument. *)
Definition JSON_stringify (gap : string) (v : JsValue) : option string :=
  Serialize gap "" <$> toJSON v.

(** Parsed data as a value again, for [JSON.stringify(event.payload)]. *)
Fixpoint of_json (j : json) : JsValue :=
  match j with
  | JNull => VNull
  | JBool b => VBool b
  | JNumber x => VNumber x
  | JString s => VString s
  | JArray l => VArray (map of_json l)
  | JObject m => VObject (map (λ kv, (kv.1, of_json kv.2)) m)
  end.

Definition of_json_opt (v : option json) : JsValue :=
  match v with
  | None => VUndefined
  | Some j => of_json j
  end.


(** ** The product entity and its DTOs *)

(** product.entity.ts *)
Module Product.
Record t : Set := mk {
  id : string;
  name : string;
  description : string;
  price : number;
  createdAt : Date;
  updatedAt : Date;
}.
End Product.
Abbreviation Product := Product.t.

(** create-product.dto.ts *)
Module CreateProductDto.
Record t : Set := mk {
  name : string;
  description : string;
  price : number;
}.
End CreateProductDto.
Abbreviation CreateProductDto := CreateProductDto.t.

(** update-product.dto.ts: every field is optional, [None] is a field the
    request left out ([undefined]). *)
Module UpdateProductDto.
Record t : Set := mk {
  name : option string;
  description : option string;
  price : option number;
}.
End UpdateProductDto.
Abbreviation UpdateProductDto := UpdateProductDto.t.

(** The product as the object [JSON.stringify] walks: own properties in
    the order the object literal (and the spread in [update]) creates them. *)
Definition Product_object (p : Product) : JsValue :=
  VObject [
    ("id", VString (Product.id p));
    ("name", VString (Product.name p));
    ("description", VString (Product.description p));
    ("price", VNumber (Product.price p));
    ("createdAt", VDate (Product.createdAt p));
    ("updatedAt", VDate (Product.updatedAt p))
  ].

(** ** Effects *)

Inductive Exception : Set :=
  | NotFoundException (message : string)
  | KafkaJSError
  | SyntaxError
  | TypeError.

Record Message : Set := {
  key : string;
  value : option string;
}.

Record ProducerRecord : Set := {
  topic : string;
  messages : list Message;
}.

(** What the program did, in program order. *)
Inductive Effect : Set :=
  | MapSet (id : string) (p : Product)
  | MapDelete (id : string)
  | ProducerSend (record : ProducerRecord) (acknowledged : bool).

Inductive ConsoleEntry : Set :=
  | ConsoleLog (args : list (option string))
  | ConsoleError (message : string) (e : Exception).

(** The surroundings of the process: the successive readings of the
    clock, the successive results of [uuidv4()], whether the broker
    acknowledges the successive sends, and [process.env.KAFKA_TOPIC]. *)
Record Env : Type := {
  clock : nat → Date;
  uuid : nat → string;
  broker_ack : nat → bool;
  KAFKA_TOPIC : option string;
}.

Record World : Type := {
  env : Env;
  ticks : nat;
  uuids : nat;
  sends : nat;
  products : gmap string Product;
  journal : list Effect;
  console : list ConsoleEntry;
}.

Definition boot (E : Env) : World :=
  {| env := E; ticks := 0; uuids := 0; sends := 0; products := ∅;
     journal := []; console := [] |}.

Inductive Outcome (A : Type) : Type :=
  | Return (a : A)
  | Throw (e : Exception).
Arguments Return {A} a.
Arguments Throw {A} e.

Definition M (A : Type) : Type := World → Outcome A * World.

Definition ret {A} (a : A) : M A := λ w, (Return a, w).

Definition throw {A} (e : Exception) : M A := λ w, (Throw e, w).

Definition bind {A B} (m : M A) (k : A → M B) : M B :=
  λ w, match m w with
       | (Return a, w') => k a w'
       | (Throw e, w') => (Throw e, w')
       end.

Definition try_catch {A} (body : M A) (handler : Exception → M A) : M A :=
  λ w, match body w with
       | (Return a, w') => (Return a, w')
       | (Throw e, w') => handler e w'
       end.

Declare Scope js_scope.
Delimit Scope js_scope with js.
Notation "x <- m ;; k" := (bind m (λ x, k))
  (at level 100, m at next level, right associativity) : js_scope.
Notation "m ;; k" := (bind m (λ _, k))
  (at level 100, right associativity) : js_scope.
Local Open Scope js_scope.

(** [new Date()] *)
Definition new_Date : M Date :=
  λ w, (Return (clock (env w) (ticks w)),
        {| env := env w; ticks := S (ticks w); uuids := uuids w;
           sends := sends w; products := products w; journal := journal w;
           console := console w |}).

(** [uuidv4()] *)
Definition uuidv4 : M string :=
  λ w, (Return (uuid (env w) (uuids w)),
        {| env := env w; ticks := ticks w; uuids := S (uuids w);
           sends := sends w; products := products w; journal := journal w;
           console := console w |}).

(** [this.products.get(id)] *)
Definition products_get (id : string) : M (option Product) :=
  λ w, (Return (products w !! id), w).

(** [this.products.set(id, product)] *)
Definition products_set (id : string) (p : Product) : M unit :=
  λ w, (Return (),
        {| env := env w; ticks := ticks w; uuids := uuids w;
           sends := sends w; products := <[id := p]> (products w);
           journal := journal w ++ [MapSet id p]; console := console w |}).

(** [this.products.delete(id)] *)
Definition products_delete (id : string) : M unit :=
  λ w, (Return (),
        {| env := env w; ticks := ticks w; uuids := uuids w;
           sends := sends w; products := delete id (products w);
           journal := journal w ++ [MapDelete id]; console := console w |}).

(** [Array.from(this.products.values())]: the products of the map, each
    once. A [Map] is iterated in insertion order; the order of the list
    is not modelled, [gmap] has its own. *)
Definition products_values : M (list Product) :=
  λ w, (Return ((map_to_list (products w)).*2), w).

(** [await this.producer.send(record)]: the promise is rejected when the
    broker does not acknowledge. *)
Definition producer_send (record : ProducerRecord) : M unit :=
  λ w, let ok := broker_ack (env w) (sends w) in
       (if ok then Return () else Throw KafkaJSError,
        {| env := env w; ticks := ticks w; uuids := uuids w;
           sends := S (sends w); products := products w;
           journal := journal w ++ [ProducerSend record ok];
           console := console w |}).

Definition console_log (args : list (option string)) : M unit :=
  λ w, (Return (),
        {| env := env w; ticks := ticks w; uuids := uuids w;
           sends := sends w; products := products w; journal := journal w;
           console := console w ++ [ConsoleLog args] |}).

Definition console_error (message : string) (e : Exception) : M unit :=
  λ w, (Return (),
        {| env := env w; ticks := ticks w; uuids := uuids w;
           sends := sends w; products := products w; journal := journal w;
           console := console w ++ [ConsoleError message e] |}).

(** [process.env.KAFKA_TOPIC || 'product-events'] *)
Definition TOPIC_of (E : Env) : string :=
  match KAFKA_TOPIC E with
  | None | Some "" => "product-events"
  | Some t => t
  end.

Definition TOPIC : M string := λ w, (Return (TOPIC_of (env w)), w).

(** ** kafka-producer.service.ts *)
Module KafkaProducerService.

Definition envelope (eventType : string) (payload : JsValue)
    (now : Date) : JsValue :=
  VObject [
    ("type", VString eventType);
    ("payload", payload);
    ("timestamp", VString (toISOString now))
  ].

Definition emit (eventType : string) (payload : JsValue) : M unit :=
  now <- new_Date ;;
  topic <- TOPIC ;;
  producer_send {|
    topic := topic;
    messages := [
      {| key := eventType;
         value := JSON_stringify "" (envelope eventType payload now) |}
    ]
  |}.

End KafkaProducerService.

(** ** products.service.ts *)
Module PRODUCT_EVENTS.
Definition CREATED : string := "product.created".
Definition UPDATED : string := "product.updated".
Definition DELETED : string := "product.deleted".
End PRODUCT_EVENTS.

Module ProductsService.

Definition create (dto : CreateProductDto) : M Product :=
  now <- new_Date ;;
  id <- uuidv4 ;;
  let product := {|
    Product.id := id;
    Product.name := CreateProductDto.name dto;
    Product.description := CreateProductDto.description dto;
    Product.price := CreateProductDto.price dto;
    Product.createdAt := now;
    Product.updatedAt := now;
  |} in
  products_set (Product.id product) product ;;
  KafkaProducerService.emit PRODUCT_EVENTS.CREATED (Product_object product) ;;
  ret product.

Definition findAll : M (list Product) := products_values.

Definition findOne (id : string) : M Product :=
  product <- products_get id ;;
  match product with
  | None => throw (NotFoundException ("Product " +:+ id +:+ " not found"))
  | Some product => ret product
  end.

Definition update (id : string) (dto : UpdateProductDto) : M Product :=
  existing <- findOne id ;;
  now <- new_Date ;;
  let updated := {|
    Product.id := Product.id existing;
    Product.name :=
      match UpdateProductDto.name dto with
      | Some name => name
      | None => Product.name existing
      end;
    Product.description :=
      match UpdateProductDto.description dto with
      | Some description => description
      | None => Product.description existing
      end;
    Product.price :=
      match UpdateProductDto.price dto with
      | Some price => price
      | None => Product.price existing
      end;
    Product.createdAt := Product.createdAt existing;
    Product.updatedAt := now;
  |} in
  products_set id updated ;;
  KafkaProducerService.emit PRODUCT_EVENTS.UPDATED (Product_object updated) ;;
  ret updated.

Definition remove (id : string) : M unit :=
  product <- findOne id ;;
  products_delete id ;;
  KafkaProducerService.emit PRODUCT_EVENTS.DELETED (Product_object product).

End ProductsService.

(** ** kafka-consumer.service.ts *)
Module KafkaConsumerService.

(** [EachMessagePayload], with [message.value] already a string or
    [null] (a [Buffer] read with [toString()]). *)
Record EachMessagePayload : Set := {
  topic : string;
  partition : N;
  message_value : option string;
}.

Definition lift_parse {A} (e : Exception) (r : option A) : M A :=
  match r with
  | Some a => ret a
  | None => throw e
  end.

Definition handleMessage (payload : EachMessagePayload) : M unit :=
  match message_value payload with
  | None | Some "" => ret ()
  | Some value =>
      try_catch
        (event <- lift_parse SyntaxError (JSON_parse value) ;;
         (* event.type, then event.timestamp: reading a property of
            null throws *)
         _ <- lift_parse TypeError
                (match event with JNull => None | _ => Some () end) ;;
         type <- lift_parse TypeError (ToString_opt (Get event "type")) ;;
         timestamp <- lift_parse TypeError
                        (ToString_opt (Get event "timestamp")) ;;
         console_log [
           Some ("[Kafka] " +:+ topic payload +:+ "/" +:+
                 digits_string (N_digits (partition payload)) +:+
                 " | " +:+ type +:+ " | " +:+ timestamp)
         ] ;;
         console_log [
           Some "  Payload:";
           JSON_stringify "  " (of_json_opt (Get event "payload"))
         ])
        (λ e, console_error "Failed to process Kafka message:" e)
  end.


End KafkaConsumerService.

(** ** Sequences of requests *)

Inductive Op : Set :=
  | OpCreate (dto : CreateProductDto)
  | OpUpdate (id : string) (dto : UpdateProductDto)
  | OpRemove (id : string).

Inductive Reply : Set :=
  | ReplyProduct (p : Product)
  | ReplyVoid.

Definition perform (op : Op) : M Reply :=
  match op with
  | OpCreate dto => p <- ProductsService.create dto ;; ret (ReplyProduct p)
  | OpUpdate id dto => p <- ProductsService.update id dto ;; ret (ReplyProduct p)
  | OpRemove id => ProductsService.remove id ;; ret ReplyVoid
  end.

(** Requests are served one after the other; an exception is the answer
    to the request that raised it and the next request is served from the
    state it left. *)
Fixpoint serve (ops : list Op) (w : World) : World :=
  match ops with
  | [] => w
  | op :: rest => serve rest (perform op w).2
  end.


(** A concrete environment for the examples: the clock advances by one
    second per reading from an arbitrary instant, identifiers are numbered,
    the broker acknowledges every send or none. *)
Definition example_env (acks : nat → bool) : Env :=
  {| clock := λ k, 1700000000000 + 1000 * Z.of_nat k;
     uuid := λ k, "id-" +:+ digits_string (N_digits (N.of_nat k));
     broker_ack := acks;
     KAFKA_TOPIC := None |}.

Definition broker_up : nat → bool := λ _, true.
Definition broker_down : nat → bool := λ _, false.
Definition broker_down_after (n : nat) : nat → bool := λ k, bool_decide (k < n)%nat.

Definition laptop : CreateProductDto :=
  {| CreateProductDto.name := "Laptop";
     CreateProductDto.description := "Gaming laptop";
     CreateProductDto.price := Finite false [d9; d9; d9; d9; d9] 3 |}.

Definition cheaper : UpdateProductDto :=
  {| UpdateProductDto.name := None;
     UpdateProductDto.description := None;
     UpdateProductDto.price := Some (Finite false [d8; d9; d9; d9; d9] 3) |}.

Global Instance Product_eq_dec : EqDecision Product.
Proof. solve_decision. Defined.
Global Instance CreateProductDto_eq_dec : EqDecision CreateProductDto.
Proof. solve_decision. Defined.
Global Instance UpdateProductDto_eq_dec : EqDecision UpdateProductDto.
Proof. solve_decision. Defined.
Global Instance Op_eq_dec : EqDecision Op.
Proof. solve_decision. Defined.

(** The exception of [findOne]. *)
Definition not_found (id : string) : Exception :=
  NotFoundException ("Product " +:+ id +:+ " not found").

(** The record [emit] hands to [producer.send] when the clock reads [now]. *)
Definition sent_record (E : Env) (eventType : string) (payload : JsValue)
    (now : Date) : ProducerRecord :=
  {| topic := TOPIC_of E;
     messages := [
       {| key := eventType;
          value := JSON_stringify ""
                     (KafkaProducerService.envelope eventType payload now) |}
     ] |}.

Definition example_product : Product :=
  {| Product.id := "id-0"; Product.name := "Laptop";
     Product.description := "Gaming laptop";
     Product.price := Finite false [d9; d9; d9; d9; d9] 3;
     Product.createdAt := 1700000000000; Product.updatedAt := 1700000000000 |}.

(** The JSON data written for a product: what [toJSON] makes of
    [Product_object]. *)
Definition Product_json (p : Product) : json :=
  JObject [
    ("id", JString (Product.id p));
    ("name", JString (Product.name p));
    ("description", JString (Product.description p));
    ("price", match Product.price p with
              | NaN | Infinity _ => JNull
              | Zero _ => JNumber (Zero false)
              | Finite _ _ _ => JNumber (Product.price p)
              end);
    ("createdAt", JString (toISOString (Product.createdAt p)));
    ("updatedAt", JString (toISOString (Product.updatedAt p)))
  ].


(** The world after the console has received [entries]. *)
Definition logged (w : World) (entries : list ConsoleEntry) : World :=
  {| env := env w; ticks := ticks w; uuids := uuids w; sends := sends w;
     products := products w; journal := journal w;
     console := console w ++ entries |}.

Definition failure (e : Exception) : ConsoleEntry :=
  ConsoleError "Failed to process Kafka message:" e.

(** The type and the timestamp of an event as the log line prints them;
    [None] when reading or converting them throws. *)
Definition event_header (event : json) : option (string * string) :=
  match event with
  | JNull => None
  | _ =>
      type ← ToString_opt (Get event "type");
      timestamp ← ToString_opt (Get event "timestamp");
      Some (type, timestamp)
  end.

(** What the consumer writes on the console for one message: nothing for
    a null or empty value, one error for a value that is not a JSON text
    or whose type and timestamp cannot be read, the two lines of an event
    for every other value. *)
Definition entries_of (payload : KafkaConsumerService.EachMessagePayload) :
    list ConsoleEntry :=
  match KafkaConsumerService.message_value payload with
  | None | Some "" => []
  | Some value =>
      match JSON_parse value with
      | None => [failure SyntaxError]
      | Some event =>
          match event_header event with
          | None => [failure TypeError]
          | Some (type, timestamp) => [
              ConsoleLog [
                Some ("[Kafka] " +:+ KafkaConsumerService.topic payload +:+
                      "/" +:+
                      digits_string
                        (N_digits (KafkaConsumerService.partition payload)) +:+
                      " | " +:+ type +:+ " | " +:+ timestamp)
              ];
              ConsoleLog [
                Some "  Payload:";
                JSON_stringify "  " (of_json_opt (Get event "payload"))
              ]
            ]
          end
      end
  end.

(** The keys of the messages handed to the producer, in order. *)
Definition sent_keys (h : list Effect) : list string :=
  h ≫= λ e,
    match e with
    | ProducerSend record _ => key <$> messages record
    | _ => []
    end.

(** The journal read as the spec words it: [p] is the latest state of the
    entity [id] when a create or an update wrote [p] under [id] and no
    later entry removes [id] or writes it again. *)
Definition latest_write (h : list Effect) (id : string) (p : Product) : Prop :=
  ∃ h1 h2,
    h = h1 ++ MapSet id p :: h2 ∧
    ∀ e, e ∈ h2 → e ≠ MapDelete id ∧ ∀ q, e ≠ MapSet id q.


(** What holds of every world the requests can reach. *)
Definition store_inv (w : World) : Prop :=
  (∀ id p, products w !! id = Some p ↔ latest_write (journal w) id p) ∧
  (∀ id p, products w !! id = Some p → Product.id p = id) ∧
  (∀ id p, products w !! id = Some p →
     ∃ i j, (i ≤ j < ticks w)%nat ∧
       Product.createdAt p = clock (env w) i ∧
       Product.updatedAt p = clock (env w) j) ∧
  (∀ id, is_Some (products w !! id) →
     ∃ k, (k < uuids w)%nat ∧ id = uuid (env w) k).

(** ** Configuration read from the environment *)

(** [s.split(sep)] for a separator of one character: the pieces of [s]
    between the separators; there is always at least one piece. *)
Fixpoint String_split (sep : ascii) (s : string) : list string :=
  match s with
  | "" => [""]
  | String c r =>
      if bool_decide (c = sep) then "" :: String_split sep r
      else
        match String_split sep r with
        | [] => [String c ""]
        | x :: l => String c x :: l
        end
  end.

(** [s.includes(c)] *)
Fixpoint occurs (c : ascii) (s : string) : bool :=
  match s with
  | "" => false
  | String c' r => bool_decide (c = c') || occurs c r
  end.

(** [(process.env.KAFKA_BROKERS || 'localhost:9092').split(',')], the list
    of brokers of the producer and of the consumer. *)
Definition BROKERS (KAFKA_BROKERS : option string) : list string :=
  String_split ","
    match KAFKA_BROKERS with
    | None | Some "" => "localhost:9092"
    | Some v => v
    end.

(** ** Notions for the properties of request sequences *)

(** The id a request looks up before it does anything. *)
Definition target (op : Op) : option string :=
  match op with
  | OpCreate _ => None
  | OpUpdate id _ | OpRemove id => Some id
  end.

(** A write or a removal in the mapping. *)
Definition is_mutation (m : Effect) : Prop :=
  match m with
  | MapSet _ _ | MapDelete _ => True
  | ProducerSend _ _ => False
  end.

(** What the callers of a sequence of requests receive, in order. *)
Fixpoint replies (ops : list Op) (w : World) : list (Outcome Reply) :=
  match ops with
  | [] => []
  | op :: rest => (perform op w).1 :: replies rest (perform op w).2
  end.

(** Two partial updates in a row: the fields of the second where it has
    them, those of the first elsewhere. *)
Definition UpdateProductDto_then (first second : UpdateProductDto) :
    UpdateProductDto :=
  {| UpdateProductDto.name :=
       match UpdateProductDto.name second with
       | Some name => Some name
       | None => UpdateProductDto.name first
       end;
     UpdateProductDto.description :=
       match UpdateProductDto.description second with
       | Some description => Some description
       | None => UpdateProductDto.description first
       end;
     UpdateProductDto.price :=
       match UpdateProductDto.price second with
       | Some price => Some price
       | None => UpdateProductDto.price first
       end |}.

(** A product with its [updatedAt] set aside. *)
Definition but_updatedAt (p : Product) : Product :=
  Product.mk (Product.id p) (Product.name p) (Product.description p)
    (Product.price p) (Product.createdAt p) 0.

(** The environment [E] with another broker. *)
Definition with_broker (E : Env) (acks : nat → bool) : Env :=
  {| clock := clock E; uuid := uuid E; broker_ack := acks;
     KAFKA_TOPIC := KAFKA_TOPIC E |}.

(** The records handed to [producer.send], acknowledged or not. *)
Definition attempts (h : list Effect) : list ProducerRecord :=
  omap (λ e, match e with ProducerSend r _ => Some r | _ => None end) h.

(** Two worlds that differ by the answers of the broker only. *)
Definition same_but_broker (w w' : World) : Prop :=
  (∃ acks, env w' = with_broker (env w) acks) ∧
  ticks w' = ticks w ∧ uuids w' = uuids w ∧ sends w' = sends w ∧
  products w' = products w ∧
  attempts (journal w') = attempts (journal w).




(** ** Notions for the properties of the event stream *)

Global Instance json_eq_dec : EqDecision json.
Proof.
  refine (fix go (x y : json) {struct x} : Decision (x = y) :=
    match x, y with
    | JNull, JNull => left _
    | JBool a, JBool b => cast_if (decide (a = b))
    | JNumber a, JNumber b => cast_if (decide (a = b))
    | JString a, JString b => cast_if (decide (a = b))
    | JArray a, JArray b => cast_if (@list_eq_dec _ go a b)
    | JObject a, JObject b =>
        cast_if (@list_eq_dec _ (@prod_eq_dec _ _ _ go) a b)
    | _, _ => right _
    end); abstract congruence.
Defined.

(** The prices of a request are numbers in shortest decimal form. *)
Definition wf_op (op : Op) : Prop :=
  match op with
  | OpCreate dto => wf_number (CreateProductDto.price dto)
  | OpUpdate _ dto =>
      match UpdateProductDto.price dto with
      | Some price => wf_number price
      | None => True
      end
  | OpRemove _ => True
  end.

Definition prices_wf (w : World) : Prop :=
  ∀ id p, products w !! id = Some p → wf_number (Product.price p).

(** What a reader of the topic finds in a message: the type of the event,
    the id of the product it carries, and that product as JSON data.
    [None] when the value is not the text of such an event. *)
Definition decode (m : Message) : option (string * string * json) :=
  text ← value m;
  event ← JSON_parse text;
  payload ← Get event "payload";
  match Get event "type", Get payload "id" with
  | Some (JString eventType), Some (JString id) =>
      Some (eventType, id, payload)
  | _, _ => None
  end.

(** The events of a history, in the order of the sends. *)
Definition decoded (h : list Effect) :
    list (option (string * string * json)) :=
  h ≫= λ e,
    match e with
    | ProducerSend r _ => decode <$> messages r
    | _ => []
    end.

(** A copy of the store kept from the events alone: a created product is
    recorded, an updated one replaces the product recorded under its id,
    a deleted one is dropped. [None] when an event cannot be read, when an
    update or a deletion is about an id that is not recorded, or when a
    deletion does not carry the product recorded. *)
Fixpoint replay (view : gmap string json)
    (events : list (option (string * string * json))) :
    option (gmap string json) :=
  match events with
  | [] => Some view
  | None :: _ => None
  | Some (eventType, id, payload) :: rest =>
      if bool_decide (eventType = PRODUCT_EVENTS.CREATED) then
        replay (<[id := payload]> view) rest
      else if bool_decide (eventType = PRODUCT_EVENTS.UPDATED) then
        if bool_decide (is_Some (view !! id)) then
          replay (<[id := payload]> view) rest
        else None
      else if bool_decide (eventType = PRODUCT_EVENTS.DELETED) then
        if bool_decide (view !! id = Some payload) then
          replay (delete id view) rest
        else None
      else None
  end.

Definition replay_inv (w : World) : Prop :=
  replay ∅ (decoded (journal w)) = Some (Product_json <$> products w).

(** The ids of the created events, in order. *)
Definition created_ids (events : list (option (string * string * json))) :
    list string :=
  omap (λ ev,
          match ev with
          | Some (eventType, id, _) =>
              if bool_decide (eventType = PRODUCT_EVENTS.CREATED) then Some id
              else None
          | None => None
          end) events.

Definition created_inv (w : World) : Prop :=
  created_ids (decoded (journal w)) = uuid (env w) <$> seq 0 (uuids w).




(** What the consumer logs for data that has neither a type nor a
    timestamp nor a payload. *)
Definition undefined_event
    (payload : KafkaConsumerService.EachMessagePayload) : list ConsoleEntry :=
  [ConsoleLog [
     Some ("[Kafka] " +:+ KafkaConsumerService.topic payload +:+ "/" +:+
           digits_string (N_digits (KafkaConsumerService.partition payload)) +:+
           " | undefined | undefined")];
   ConsoleLog [Some "  Payload:"; None]].

(** * Properties of JSON texts *)

(** ** Strings and numbers *)

Lemma str_app_nil_r (s : string) : s +:+ "" = s.
Proof.
  induction s as [|c s IH]; [done|].
  change (String c (s +:+ "") = String c s). by rewrite IH.
Qed.

Lemma str_app_assoc (s t u : string) : (s +:+ t) +:+ u = s +:+ (t +:+ u).
Proof.
  induction s as [|c s IH]; [done|].
  change (String c ((s +:+ t) +:+ u) = String c (s +:+ (t +:+ u))).
  by rewrite IH.
Qed.

Lemma parse_quote_char c t :
  parse_string_body (quote_char c +:+ t) = prepend (String c "") (parse_string_body t).
Proof.
  destruct c as [[] [] [] [] [] [] [] []]; reflexivity.
Qed.

Lemma str_app_cons c (s t : string) : String c s +:+ t = String c (s +:+ t).
Proof. reflexivity. Qed.

Lemma parse_string_body_quote s rest :
  parse_string_body (quote_body s +:+ String dquote rest) = Some (s, rest).
Proof.
  induction s as [|c s IH]; [done|].
  simpl. rewrite str_app_assoc, parse_quote_char, IH. done.
Qed.

Lemma digits_string_app a b :
  digits_string (a ++ b) = digits_string a +:+ digits_string b.
Proof. induction a as [|d a IH]; [done|]. simpl. by rewrite IH. Qed.

Lemma char_digit_char d : char_digit (digit_char d) = Some d.
Proof. by destruct d. Qed.

Lemma take_digits_stop rest : digits_stop rest → take_digits rest = ([], rest).
Proof. destruct rest as [|c r]; [done|]. simpl. by intros ->. Qed.

Lemma take_digits_app ds rest :
  digits_stop rest → take_digits (digits_string ds +:+ rest) = (ds, rest).
Proof.
  intros Hstop. induction ds as [|d ds IH]; simpl.
  - by apply take_digits_stop.
  - rewrite ?str_app_cons. simpl. by rewrite char_digit_char, IH.
Qed.

Lemma uint_of_digits_of_uint u : uint_of_digits (digits_of_uint u) = u.
Proof. induction u; simpl; by rewrite ?IHu. Qed.

Lemma digits_N_digits n : digits_N (N_digits n) = n.
Proof.
  unfold digits_N, N_digits. rewrite uint_of_digits_of_uint.
  apply DecimalN.Unsigned.of_to.
Qed.

Lemma digits_of_uint_nil u : digits_of_uint u = [] → u = Decimal.Nil.
Proof. by destruct u. Qed.

Lemma N_digits_nonempty n : N_digits n ≠ [].
Proof.
  unfold N_digits. intros H%digits_of_uint_nil. destruct n as [|p]; [done|].
  by apply (DecimalPos.Unsigned.to_uint_nonnil p).
Qed.

Lemma strip_zeros_head s : head s ≠ Some d0 → strip_zeros s = s.
Proof. destruct s as [|[] s]; done. Qed.

Lemma strip_zeros_zeros n s : strip_zeros (zeros n ++ s) = strip_zeros s.
Proof. induction n; done. Qed.

Lemma reverse_zeros n : reverse (zeros n) = zeros n.
Proof. unfold zeros. by rewrite reverse_replicate. Qed.

Lemma rstrip_zeros_app s n :
  last s ≠ Some d0 → rstrip_zeros (s ++ zeros n) = s.
Proof.
  intros Hlast. unfold rstrip_zeros.
  rewrite reverse_app, reverse_zeros, strip_zeros_zeros.
  rewrite strip_zeros_head; [by rewrite reverse_involutive|].
  by rewrite head_reverse.
Qed.

Lemma rstrip_zeros_id s : last s ≠ Some d0 → rstrip_zeros s = s.
Proof.
  intros H. rewrite <-(app_nil_r s) at 1. by apply (rstrip_zeros_app s 0).
Qed.

Lemma number_stop_digits rest : number_stop rest → digits_stop rest.
Proof. destruct rest; [done|]. by intros [? _]. Qed.

Lemma parse_frac_stop rest : number_stop rest → parse_frac rest = Some ([], rest).
Proof.
  destruct rest as [|c r]; [done|]. intros (_ & Hdot & _).
  destruct c as [[] [] [] [] [] [] [] []]; done.
Qed.

Lemma parse_exp_stop rest : number_stop rest → parse_exp rest = Some (0, rest).
Proof.
  destruct rest as [|c r]; [done|]. intros (_ & _ & He1 & He2).
  unfold parse_exp. rewrite bool_decide_eq_false_2; [done|]. by intros [|].
Qed.

Lemma parse_int_digits ds rest :
  ds ≠ [] → head ds ≠ Some d0 → digits_stop rest →
  parse_int (digits_string ds +:+ rest) = Some (ds, rest).
Proof.
  intros Hne Hhead Hstop. destruct ds as [|d ds]; [done|].
  assert (parse_int (digits_string (d :: ds) +:+ rest) =
          match take_digits (digits_string (d :: ds) +:+ rest) with
          | ([], _) => None
          | (ds', r) => Some (ds', r)
          end) as ->.
  { destruct d; done. }
  by rewrite take_digits_app.
Qed.

Lemma parse_frac_digits ds rest :
  ds ≠ [] → digits_stop rest →
  parse_frac (String "." (digits_string ds +:+ rest)) = Some (ds, rest).
Proof.
  intros Hne Hstop. change (parse_frac _) with
    (match take_digits (digits_string ds +:+ rest) with
     | ([], _) => None
     | (ds', r') => Some (ds', r')
     end).
  rewrite take_digits_app by done. by destruct ds.
Qed.

Lemma parse_exp_digits_N neg m rest :
  digits_stop rest →
  parse_exp_digits neg (digits_string (N_digits m) +:+ rest) =
    Some (if neg then - Z.of_N m else Z.of_N m, rest).
Proof.
  intros Hstop. unfold parse_exp_digits. rewrite take_digits_app by done.
  pose proof (N_digits_nonempty m).
  destruct (N_digits m) eqn:Hm; [done|]. by rewrite <-Hm, digits_N_digits.
Qed.

Lemma parse_exp_printed e rest :
  digits_stop rest →
  parse_exp ("e" +:+ (if bool_decide (e < 0) then "-" else "+") +:+
             digits_string (N_digits (Z.to_N (Z.abs e))) +:+ rest) =
    Some (e, rest).
Proof.
  intros Hstop. case_bool_decide.
  - change (parse_exp _) with
      (parse_exp_digits true (digits_string (N_digits (Z.to_N (Z.abs e))) +:+ rest)).
    rewrite parse_exp_digits_N by done. f_equal. f_equal. lia.
  - change (parse_exp _) with
      (parse_exp_digits false (digits_string (N_digits (Z.to_N (Z.abs e))) +:+ rest)).
    rewrite parse_exp_digits_N by done. f_equal. f_equal. lia.
Qed.

Lemma make_number_canon neg ip fp e z t s n :
  ip ++ fp = zeros z ++ s ++ zeros t →
  s ≠ [] → head s ≠ Some d0 → last s ≠ Some d0 →
  n = Z.of_nat (length ip) + e - Z.of_nat z →
  make_number neg ip fp e = Finite neg s n.
Proof.
  intros Hall Hne Hhead Hlast ->. unfold make_number. rewrite Hall.
  rewrite strip_zeros_zeros, strip_zeros_head by (by destruct s).
  rewrite rstrip_zeros_app by done.
  rewrite !length_app. unfold zeros at 1. rewrite length_replicate.
  replace (z + (length s + length (zeros t)) - (length s + length (zeros t)))%nat
    with z by lia.
  by destruct s.
Qed.

Lemma str_app_single c (t : string) : String c "" +:+ t = String c t.
Proof. reflexivity. Qed.

Lemma parse_frac_e (r : string) : parse_frac ("e" +:+ r) = Some ([], "e" +:+ r).
Proof. reflexivity. Qed.

Lemma obind_Some {A B} (x : A) (f : A → option B) : Some x ≫= f = f x.
Proof. reflexivity. Qed.

Ltac step := rewrite obind_Some; cbv beta iota.

Lemma parse_unsigned_decimal neg s n rest :
  s ≠ [] → head s ≠ Some d0 → last s ≠ Some d0 → number_stop rest →
  parse_unsigned neg (decimal_string s n +:+ rest) = Some (Finite neg s n, rest).
Proof.
  intros Hne Hhead Hlast Hstop.
  pose proof (number_stop_digits _ Hstop) as Hdstop.
  unfold decimal_string, parse_unsigned.
  case_bool_decide as H1; [|case_bool_decide as H2; [|case_bool_decide as H3]].
  - rewrite parse_int_digits; [|by destruct s| by destruct s |done].
    step. rewrite parse_frac_stop by done.
    step. rewrite parse_exp_stop by done.
    step. f_equal. f_equal.
    apply (make_number_canon _ _ _ _ 0 (Z.to_nat (n - Z.of_nat (length s)))); try done.
    + by rewrite app_nil_r.
    + rewrite length_app. unfold zeros. rewrite length_replicate. lia.
  - rewrite str_app_assoc.
    rewrite parse_int_digits; [|destruct s; [done|]; by destruct (Z.to_nat n) eqn:?; [lia|]
                               | destruct s; [done|]; by destruct (Z.to_nat n) eqn:?; [lia|]
                               | done].
    step. rewrite str_app_assoc, str_app_single.
    rewrite parse_frac_digits;
      [|intros Hd%(f_equal length); rewrite length_drop in Hd;
        simpl in Hd; lia|done].
    step. rewrite parse_exp_stop by done.
    step. f_equal. f_equal.
    apply (make_number_canon _ _ _ _ 0 0); try done.
    + by rewrite take_drop, app_nil_r.
    + rewrite length_take. lia.
  - change ("0." +:+ ?x) with (String "0" ("." +:+ x)).
    rewrite str_app_cons. change (parse_int (String "0" ?r)) with (Some ([d0], r)).
    step. rewrite str_app_assoc, str_app_single.
    rewrite parse_frac_digits; [|by destruct s, (Z.to_nat (- n))|done].
    step. rewrite parse_exp_stop by done.
    step. f_equal. f_equal.
    apply (make_number_canon _ _ _ _ (S (Z.to_nat (- n))) 0); try done.
    + by rewrite app_nil_r.
    + simpl. lia.
  - destruct s as [|d [|d' s]]; [done| |].
    + rewrite !str_app_assoc.
      rewrite parse_int_digits; [|done|done|reflexivity].
      step. rewrite parse_frac_e.
      step. rewrite parse_exp_printed by done.
      step. f_equal. f_equal.
      apply (make_number_canon _ _ _ _ 0 0); try done. simpl. lia.
    + rewrite !str_app_assoc.
      rewrite parse_int_digits; [|done|done|reflexivity].
      step. rewrite str_app_single. rewrite parse_frac_digits; [|done|reflexivity].
      step. rewrite parse_exp_printed by done.
      step. f_equal. f_equal.
      apply (make_number_canon _ _ _ _ 0 0); try done.
      * simpl. by rewrite app_nil_r.
      * simpl. lia.
Qed.

Lemma parse_number_digit d r :
  parse_number (String (digit_char d) r) = parse_unsigned false (String (digit_char d) r).
Proof. by destruct d. Qed.

Lemma decimal_string_head s n rest :
  s ≠ [] → ∃ d r, decimal_string s n +:+ rest = String (digit_char d) r.
Proof.
  intros Hne. destruct s as [|d s]; [done|]. unfold decimal_string.
  case_bool_decide as H1; [|case_bool_decide as H2; [|case_bool_decide as H3]].
  - by eexists _, _.
  - destruct (Z.to_nat n) eqn:Hn; [lia|]. by eexists _, _.
  - by exists d0, ("." +:+ digits_string (zeros (Z.to_nat (- n)) ++ d :: s) +:+ rest).
  - destruct s; by eexists _, _.
Qed.

Lemma parse_number_toString x rest :
  printable_number x → number_stop rest →
  parse_number (Number_toString x +:+ rest) = Some (x, rest).
Proof.
  destruct x as [|neg|[]|neg s n]; try done.
  - intros _ Hstop. change (parse_number _) with
      (parse_int (String "0" rest) ≫= λ '(ip, s2), parse_frac s2 ≫= λ '(fp, s3),
         parse_exp s3 ≫= λ '(e, s4), Some (make_number false ip fp e, s4)).
    change (parse_int (String "0" ?r)) with (Some ([d0], r)).
    step. rewrite parse_frac_stop by done. step.
    by rewrite parse_exp_stop by done.
  - intros (Hne & Hhead & Hlast) Hstop. simpl. destruct neg.
    + change (parse_number _) with (parse_unsigned true (decimal_string s n +:+ rest)).
      by apply parse_unsigned_decimal.
    + destruct (decimal_string_head s n rest Hne) as (d & r & Heq).
      rewrite Heq, parse_number_digit, <-Heq.
      by apply parse_unsigned_decimal.
Qed.

(** ** Reading back the text of canonical data *)

Lemma json_ind' (P : json → Prop) :
  P JNull → (∀ b, P (JBool b)) → (∀ x, P (JNumber x)) → (∀ s, P (JString s)) →
  (∀ l, Forall P l → P (JArray l)) →
  (∀ m, Forall (λ kv, P kv.2) m → P (JObject m)) →
  ∀ j, P j.
Proof.
  intros Hnull Hbool Hnum Hstr Harr Hobj.
  fix IH 1. intros [|b|x|s|l|m].
  - exact Hnull.
  - apply Hbool.
  - apply Hnum.
  - apply Hstr.
  - apply Harr. induction l as [|v l IHl]; constructor; [apply IH|exact IHl].
  - apply Hobj. induction m as [|kv m IHm]; constructor; [apply IH|exact IHm].
Qed.

Lemma canonical_array l : canonical (JArray l) ↔ Forall canonical l.
Proof.
  induction l as [|v l IH]; simpl; [by split|].
  rewrite Forall_cons. simpl in IH. by rewrite IH.
Qed.

Lemma canonical_object m :
  canonical (JObject m) ↔
  NoDup m.*1 ∧ Forall (λ k, array_index k = None) m.*1 ∧
  Forall (λ kv, canonical kv.2) m.
Proof.
  simpl. do 2 (apply and_iff_compat_l).
  induction m as [|kv m IH]; [by split|].
  rewrite Forall_cons. by rewrite IH.
Qed.

Lemma json_size_array l : json_size (JArray l) = S (elements_size l).
Proof. reflexivity. Qed.

Lemma json_size_object m : json_size (JObject m) = S (members_size m).
Proof. reflexivity. Qed.

Lemma print_array v l :
  print (JArray (v :: l)) = "[" +:+ join "," (map print (v :: l)) +:+ "]".
Proof. reflexivity. Qed.

Lemma print_object kv m :
  print (JObject (kv :: m)) = "{" +:+ join "," (map member_text (kv :: m)) +:+ "}".
Proof. reflexivity. Qed.

Lemma parse_elements_S f s :
  parse_elements (S f) s =
    '(v, r) ← parse_value f s;
    match skip_ws r with
    | "" => None
    | String c r' =>
        if bool_decide (c = ","%char) then
          '(l, r'') ← parse_elements f r'; Some (v :: l, r'')
        else if bool_decide (c = "]"%char) then Some ([v], r')
        else None
    end.
Proof. reflexivity. Qed.

Lemma parse_members_S f s acc :
  parse_members (S f) s acc =
    match skip_ws s with
    | "" => None
    | String c r =>
        if bool_decide (c = dquote) then
          '(k, r1) ← parse_string_body r;
          match skip_ws r1 with
          | "" => None
          | String c1 r2 =>
              if bool_decide (c1 = ":"%char) then
                '(v, r3) ← parse_value f r2;
                let acc' := CreateDataProperty acc k v in
                match skip_ws r3 with
                | "" => None
                | String c3 r4 =>
                    if bool_decide (c3 = ","%char) then parse_members f r4 acc'
                    else if bool_decide (c3 = "}"%char) then Some (acc', r4)
                    else None
                end
              else None
          end
        else None
    end.
Proof. reflexivity. Qed.

Lemma parse_value_S f s :
  parse_value (S f) s =
    match skip_ws s with
    | "" => None
    | String c r =>
        if bool_decide (c = "n"%char) then
          r' ← strip_prefix "ull" r; Some (JNull, r')
        else if bool_decide (c = "t"%char) then
          r' ← strip_prefix "rue" r; Some (JBool true, r')
        else if bool_decide (c = "f"%char) then
          r' ← strip_prefix "alse" r; Some (JBool false, r')
        else if bool_decide (c = dquote) then
          '(str, r') ← parse_string_body r; Some (JString str, r')
        else if bool_decide (c = "["%char) then
          match skip_ws r with
          | "" => None
          | String c' r' =>
              if bool_decide (c' = "]"%char) then Some (JArray [], r')
              else '(l, r'') ← parse_elements f r; Some (JArray l, r'')
          end
        else if bool_decide (c = "{"%char) then
          match skip_ws r with
          | "" => None
          | String c' r' =>
              if bool_decide (c' = "}"%char) then Some (JObject [], r')
              else '(m, r'') ← parse_members f r []; Some (JObject m, r'')
          end
        else
          '(x, r') ← parse_number (String c r); Some (JNumber x, r')
    end.
Proof. reflexivity. Qed.

(** Deciding the tests of the parser on the characters of a text. *)
Ltac chars :=
  repeat first
    [ rewrite bool_decide_eq_true_2 by done
    | rewrite bool_decide_eq_false_2 by done ].

Lemma parse_elements_join l :
  Forall reads_back l → l ≠ [] →
  ∀ fuel rest, (elements_size l ≤ fuel)%nat →
    parse_elements fuel (join "," (map print l) +:+ "]" +:+ rest) = Some (l, rest).
Proof.
  intros Hall. induction Hall as [|v l Hv Hl IH]; [done|]. intros _ fuel rest Hfuel.
  simpl in Hfuel. destruct fuel as [|fuel]; [lia|].
  rewrite parse_elements_S. destruct l as [|v' l].
  - simpl join. rewrite Hv; [|lia|done]. step.
    change (skip_ws ("]" +:+ ?r)) with (String "]"%char r). cbv iota. by chars.
  - change (join "," (map print (v :: v' :: l))) with
      (print v +:+ "," +:+ join "," (map print (v' :: l))).
    rewrite !str_app_assoc. rewrite Hv; [|lia|done]. step.
    change (skip_ws ("," +:+ ?r)) with (String ","%char r).
    cbv iota. chars. rewrite IH; [by step|done|simpl in *; lia].
Qed.

Lemma has_key_false k (acc : list (string * json)) :
  k ∉ acc.*1 → has_key k acc = false.
Proof.
  induction acc as [|[k' v'] acc IH]; [done|]. simpl.
  rewrite not_elem_of_cons. intros [Hne Hnin].
  by rewrite bool_decide_eq_false_2, IH.
Qed.

Lemma CreateDataProperty_fresh acc k v :
  k ∉ acc.*1 → array_index k = None →
  CreateDataProperty acc k v = acc ++ [(k, v)].
Proof.
  intros Hnin Hidx. unfold CreateDataProperty.
  by rewrite has_key_false, Hidx.
Qed.

Lemma member_text_app kv tail :
  member_text kv +:+ tail =
    String dquote (quote_body kv.1 +:+
                   String dquote (String ":"%char (print kv.2 +:+ tail))).
Proof.
  unfold member_text, QuoteJSONString.
  rewrite !str_app_cons. f_equal. by rewrite !str_app_assoc.
Qed.

Lemma parse_members_join m :
  Forall (λ kv, reads_back kv.2) m → m ≠ [] →
  ∀ fuel rest acc, (members_size m ≤ fuel)%nat →
    NoDup (acc.*1 ++ m.*1) → Forall (λ k, array_index k = None) m.*1 →
    parse_members fuel (join "," (map member_text m) +:+ "}" +:+ rest) acc =
      Some (acc ++ m, rest).
Proof.
  intros Hall. induction Hall as [|[k v] m Hv Hm IH]; [done|].
  intros _ fuel rest acc Hfuel Hdup Hidx.
  simpl in Hfuel. destruct fuel as [|fuel]; [lia|].
  apply Forall_cons in Hidx as [Hk Hidx].
  assert (k ∉ acc.*1) as Hfresh.
  { apply NoDup_app in Hdup as (_ & Hdisj & _). intros Hin.
    apply (Hdisj _ Hin). simpl. left. }
  rewrite parse_members_S. destruct m as [|kv' m].
  - simpl join. rewrite member_text_app.
    change (skip_ws (String dquote ?r)) with (String dquote r). cbv iota. chars.
    rewrite parse_string_body_quote. step.
    change (skip_ws (String ":"%char ?r)) with (String ":"%char r). cbv iota. chars.
    simpl in Hv. rewrite Hv; [|lia|done]. step. cbv zeta.
    change (skip_ws ("}" +:+ ?r)) with (String "}"%char r). cbv iota. chars.
    by rewrite CreateDataProperty_fresh.
  - change (join "," (map member_text ((k, v) :: kv' :: m))) with
      (member_text (k, v) +:+ "," +:+ join "," (map member_text (kv' :: m))).
    rewrite !str_app_assoc, member_text_app.
    change (skip_ws (String dquote ?r)) with (String dquote r). cbv iota. chars.
    rewrite parse_string_body_quote. step.
    change (skip_ws (String ":"%char ?r)) with (String ":"%char r). cbv iota. chars.
    simpl in Hv. rewrite Hv; [|lia|done]. step. cbv zeta.
    change (skip_ws ("," +:+ ?r)) with (String ","%char r). cbv iota. chars.
    rewrite CreateDataProperty_fresh by done.
    rewrite IH; [by rewrite <-app_assoc|done|simpl in *; lia| |done].
    rewrite fmap_app, <-app_assoc. done.
Qed.

Lemma parse_value_S_number f c r :
  c = "-"%char ∨ (∃ d, c = digit_char d) →
  parse_value (S f) (String c r) =
    '(x, r') ← parse_number (String c r); Some (JNumber x, r').
Proof. intros [->|[[] ->]]; reflexivity. Qed.

Lemma Number_toString_head x rest :
  printable_number x →
  ∃ c r, Number_toString x +:+ rest = String c r ∧
         (c = "-"%char ∨ ∃ d, c = digit_char d).
Proof.
  destruct x as [|neg|[]|[] s n]; try done.
  - intros _. exists "0"%char, rest. split; [done|]. right. by exists d0.
  - intros _. eexists _, _. split; [reflexivity|]. by left.
  - intros (Hne & _). destruct (decimal_string_head s n rest Hne) as (d & r & Heq).
    exists (digit_char d), r. split; [done|]. right. by exists d.
Qed.

Lemma printable_finite x : printable_number x → is_finite x = true.
Proof. by destruct x as [| |[]|]. Qed.

Lemma print_head j rest :
  canonical j →
  ∃ c r, print j +:+ rest = String c r ∧ is_ws c = false ∧ c ≠ "]"%char.
Proof.
  destruct j as [|[]|x|s|[|v l]|[|kv m]]; intros Hj;
    try (by eexists _, _; split; [reflexivity|]).
  simpl in Hj. simpl Serialize. rewrite printable_finite by done.
  destruct (Number_toString_head x rest Hj) as (c & r & Heq & [->|[[] ->]]);
    by eexists _, r.
Qed.

Lemma join_head v l tail :
  ∃ tail', join "," (map print (v :: l)) +:+ tail = print v +:+ tail'.
Proof.
  destruct l as [|v' l]; [by eexists|].
  change (join "," (map print (v :: v' :: l))) with
    (print v +:+ "," +:+ join "," (map print (v' :: l))).
  rewrite str_app_assoc. by eexists.
Qed.

Lemma parse_value_S_array f c r :
  is_ws c = false → c ≠ "]"%char →
  parse_value (S f) (String "["%char (String c r)) =
    '(l, r') ← parse_elements f (String c r); Some (JArray l, r').
Proof.
  intros Hws Hc. rewrite parse_value_S.
  change (skip_ws (String "["%char ?x)) with (String "["%char x). cbv iota.
  chars. simpl skip_ws. rewrite Hws. by chars.
Qed.

Lemma parse_value_S_object f r :
  parse_value (S f) (String "{"%char (String dquote r)) =
    '(m, r') ← parse_members f (String dquote r) []; Some (JObject m, r').
Proof. reflexivity. Qed.

Theorem parse_value_print j : canonical j → reads_back j.
Proof.
  induction j as [|b|x|s|l IH|m IH] using json_ind'; intros Hj fuel rest Hfuel Hstop;
    (destruct fuel as [|fuel]; [simpl in Hfuel; lia|]).
  - reflexivity.
  - by destruct b.
  - simpl in Hj. simpl Serialize. rewrite printable_finite by done.
    destruct (Number_toString_head x rest Hj) as (c & r & Heq & Hc).
    rewrite Heq, parse_value_S_number, <-Heq by done.
    by rewrite parse_number_toString.
  - change (parse_value _ _) with
      ('(str, r') ← parse_string_body ((quote_body s +:+ String dquote "") +:+ rest);
       Some (JString str, r')).
    rewrite str_app_assoc. change (String dquote "" +:+ rest) with (String dquote rest).
    by rewrite parse_string_body_quote.
  - destruct l as [|v l]; [reflexivity|].
    rewrite print_array. rewrite json_size_array in Hfuel.
    rewrite !str_app_assoc, str_app_single.
    apply canonical_array in Hj.
    assert (Forall reads_back (v :: l)) as Hall.
    { apply Forall_forall. intros v' Hin.
      rewrite Forall_forall in IH, Hj. by apply IH, Hj. }
    pose proof (parse_elements_join (v :: l) Hall ltac:(done) fuel rest
                  ltac:(lia)) as Hel.
    destruct (join_head v l ("]" +:+ rest)) as (tail' & Htail).
    destruct (print_head v tail') as (c & r & Heq & Hws & Hc);
      [by apply Forall_cons in Hj as [? _]|].
    rewrite Htail, Heq in Hel |- *.
    rewrite parse_value_S_array, Hel by done. by step.
  - destruct m as [|[k v] m]; [reflexivity|].
    rewrite print_object. rewrite json_size_object in Hfuel.
    rewrite !str_app_assoc, str_app_single.
    apply canonical_object in Hj as (Hdup & Hidx & Hj).
    assert (Forall (λ kv, reads_back kv.2) ((k, v) :: m)) as Hall.
    { apply Forall_forall. intros v' Hin.
      rewrite Forall_forall in IH, Hj. by apply IH, Hj. }
    pose proof (parse_members_join ((k, v) :: m) Hall ltac:(done) fuel rest []
                  ltac:(lia) Hdup Hidx) as Hmem.
    assert (∃ r, join "," (map member_text ((k, v) :: m)) +:+ "}" +:+ rest
                 = String dquote r) as [r Heq].
    { destruct m as [|kv' m].
      - simpl join. rewrite member_text_app. by eexists.
      - change (join "," (map member_text ((k, v) :: kv' :: m))) with
          (member_text (k, v) +:+ "," +:+ join "," (map member_text (kv' :: m))).
        rewrite str_app_assoc, member_text_app. by eexists. }
    rewrite Heq in Hmem |- *.
    rewrite parse_value_S_object, Hmem. by step.
Qed.

Lemma length_str_app (s t : string) :
  String.length (s +:+ t) = (String.length s + String.length t)%nat.
Proof. induction s as [|c s IH]; [done|]. simpl. by rewrite IH. Qed.

Lemma json_size_length j : canonical j → (json_size j ≤ String.length (print j))%nat.
Proof.
  induction j as [|b|x|s|l IH|m IH] using json_ind'; intros Hj.
  - simpl. lia.
  - destruct b; simpl; lia.
  - destruct (print_head (JNumber x) "" Hj) as (c & r & Heq & _).
    rewrite str_app_nil_r in Heq. rewrite Heq. simpl. lia.
  - simpl. lia.
  - destruct l as [|v l]; [simpl; lia|].
    rewrite print_array, json_size_array.
    assert (elements_size (v :: l) ≤
            S (String.length (join "," (map print (v :: l)))))%nat;
      [|rewrite !length_str_app; change (String.length "[") with 1%nat;
        change (String.length "]") with 1%nat; lia].
    apply canonical_array in Hj.
    clear -IH Hj. induction l as [|v' l IHl] in v, IH, Hj |- *.
    + apply Forall_cons in IH as [IH _]. apply Forall_cons in Hj as [Hj _].
      specialize (IH Hj). simpl. lia.
    + apply Forall_cons in IH as [IHv IH]. apply Forall_cons in Hj as [Hv Hj].
      specialize (IHl _ IH Hj). specialize (IHv Hv).
      change (join "," (map print (v :: v' :: l))) with
        (print v +:+ "," +:+ join "," (map print (v' :: l))).
      rewrite !length_str_app. change (String.length ",") with 1%nat.
      change (elements_size (v :: v' :: l)) with
        (S (json_size v + elements_size (v' :: l))). lia.
  - destruct m as [|kv m]; [simpl; lia|].
    rewrite print_object, json_size_object.
    assert (members_size (kv :: m) ≤
            S (String.length (join "," (map member_text (kv :: m)))))%nat;
      [|rewrite !length_str_app; change (String.length "{") with 1%nat;
        change (String.length "}") with 1%nat; lia].
    apply canonical_object in Hj as (_ & _ & Hj).
    clear -IH Hj. induction m as [|kv' m IHm] in kv, IH, Hj |- *.
    + apply Forall_cons in IH as [IH _]. apply Forall_cons in Hj as [Hj _].
      specialize (IH Hj). simpl join. unfold member_text.
      rewrite !length_str_app. simpl. lia.
    + apply Forall_cons in IH as [IHv IH]. apply Forall_cons in Hj as [Hv Hj].
      specialize (IHm _ IH Hj). specialize (IHv Hv).
      change (join "," (map member_text (kv :: kv' :: m))) with
        (member_text kv +:+ "," +:+ join "," (map member_text (kv' :: m))).
      rewrite !length_str_app. change (String.length ",") with 1%nat.
      change (members_size (kv :: kv' :: m)) with
        (S (json_size kv.2 + members_size (kv' :: m))).
      unfold member_text at 1. rewrite !length_str_app. lia.
Qed.

(** Reading the text [JSON.stringify] writes for canonical data gives the
    data back. *)
Theorem JSON_parse_print j : canonical j → JSON_parse (print j) = Some j.
Proof.
  intros Hj. unfold JSON_parse.
  pose proof (parse_value_print j Hj (S (String.length (print j))) "") as Hp.
  rewrite str_app_nil_r in Hp. rewrite Hp; [done| |done].
  pose proof (json_size_length j Hj). lia.
Qed.

(** ** The fuel of the parser *)

Lemma skip_ws_length s : (String.length (skip_ws s) ≤ String.length s)%nat.
Proof. induction s as [|c s IH]; [done|]. simpl. destruct (is_ws c); simpl; lia. Qed.

Lemma strip_prefix_length p s r :
  strip_prefix p s = Some r →
  (String.length r + String.length p = String.length s)%nat.
Proof.
  revert s. induction p as [|a p IH]; intros [|b s]; simpl; try done.
  - intros [= <-]. simpl. lia.
  - intros [= <-]. simpl. lia.
  - case_bool_decide; [|done]. intros ?%IH. lia.
Qed.

Lemma prepend_Some pre res t r :
  prepend pre res = Some (t, r) → ∃ t', res = Some (t', r).
Proof. destruct res as [[t' r']|]; [|done]. intros [= _ <-]. by eexists. Qed.

Lemma parse_string_body_length s t r :
  parse_string_body s = Some (t, r) → (String.length r < String.length s)%nat.
Proof.
  enough (∀ n s t r, (String.length s ≤ n)%nat →
            parse_string_body s = Some (t, r) →
            (String.length r < String.length s)%nat) as H
    by (by apply (H (String.length s))).
  clear. intros n. induction n as [|n IH]; intros [|c s] t r Hle; try done;
    simpl in Hle; [lia|].
  assert (∀ s' pre t' r',
            (String.length s' ≤ String.length s)%nat →
            prepend pre (parse_string_body s') = Some (t', r') →
            (String.length r' < S (String.length s'))%nat) as IH'.
  { intros s' pre t' r' Hs' (t'' & Hp)%prepend_Some. apply IH in Hp; lia. }
  simpl.
  case_bool_decide; [intros [= _ <-]; lia|].
  case_bool_decide.
  - destruct s as [|e r1]; [done|]. case_bool_decide.
    + destruct r1 as [|h1 [|h2 [|h3 [|h4 r2]]]]; try done.
      destruct (hex4 h1 h2 h3 h4) as [u|]; [|done].
      assert (∀ t' r', prepend (utf8_encode u) (parse_string_body r2) = Some (t', r') →
                (String.length r' <
                 S (String.length (String e (String h1 (String h2 (String h3 (String h4 r2)))))))%nat)
        as Hr2.
      { intros t' r' Hp%IH'; simpl in *; lia. }
      destruct (is_high_surrogate u); [|apply Hr2].
      destruct r2 as [|b1 [|b2 [|l1 [|l2 [|l3 [|l4 r3]]]]]]; try apply Hr2.
      destruct (if bool_decide _ then _ else _) as [l|]; [|apply Hr2].
      destruct (is_low_surrogate l); [|apply Hr2].
      intros Hp%IH'; simpl in *; lia.
    + destruct (simple_escape e); [|done]. intros Hp%IH'; simpl in *; lia.
  - case_match; [done|]. intros Hp%IH'; simpl in *; lia.
Qed.

Lemma take_digits_length s ds r :
  take_digits s = (ds, r) →
  (String.length r + length ds = String.length s)%nat.
Proof.
  revert ds r. induction s as [|c s IH]; intros ds r; simpl.
  - by intros [= <- <-].
  - destruct (char_digit c).
    + destruct (take_digits s) as [ds' r'] eqn:Ht. intros [= <- <-].
      specialize (IH _ _ eq_refl). simpl. lia.
    + intros [= <- <-]. simpl. lia.
Qed.

Lemma parse_int_length s ds r :
  parse_int s = Some (ds, r) → (String.length r < String.length s)%nat.
Proof.
  destruct s as [|c s]; [done|]. unfold parse_int. case_bool_decide.
  - intros [= _ <-]. simpl. lia.
  - destruct (take_digits (String c s)) as [[|d ds'] r'] eqn:Ht; [done|].
    intros [= _ <-]. apply take_digits_length in Ht. simpl in *. lia.
Qed.

Lemma parse_frac_length s ds r :
  parse_frac s = Some (ds, r) → (String.length r ≤ String.length s)%nat.
Proof.
  destruct s as [|c s]; [by intros [= _ <-]|]. unfold parse_frac. case_bool_decide.
  - destruct (take_digits s) as [[|d ds'] r'] eqn:Ht; [done|].
    intros [= _ <-]. apply take_digits_length in Ht. simpl in *. lia.
  - by intros [= _ <-].
Qed.

Lemma parse_exp_digits_length neg s e r :
  parse_exp_digits neg s = Some (e, r) → (String.length r ≤ String.length s)%nat.
Proof.
  unfold parse_exp_digits.
  destruct (take_digits s) as [[|d ds'] r'] eqn:Ht; [done|].
  intros [= _ <-]. apply take_digits_length in Ht. lia.
Qed.

Lemma parse_exp_length s e r :
  parse_exp s = Some (e, r) → (String.length r ≤ String.length s)%nat.
Proof.
  destruct s as [|c s]; [by intros [= _ <-]|]. unfold parse_exp. case_bool_decide.
  - destruct s as [|sign r1]; [done|].
    repeat case_bool_decide; intros ?%parse_exp_digits_length; simpl in *; lia.
  - by intros [= _ <-].
Qed.

Lemma parse_unsigned_length neg s x r :
  parse_unsigned neg s = Some (x, r) → (String.length r < String.length s)%nat.
Proof.
  unfold parse_unsigned.
  destruct (parse_int s) as [[ip s2]|] eqn:Hi; [|done]. simpl.
  destruct (parse_frac s2) as [[fp s3]|] eqn:Hf; [|done]. simpl.
  destruct (parse_exp s3) as [[e s4]|] eqn:He; [|done]. simpl.
  intros [= _ <-].
  apply parse_int_length in Hi. apply parse_frac_length in Hf.
  apply parse_exp_length in He. lia.
Qed.

Lemma parse_number_length s x r :
  parse_number s = Some (x, r) → (String.length r < String.length s)%nat.
Proof.
  destruct s as [|c s]; [done|]. unfold parse_number. case_bool_decide.
  - intros ?%parse_unsigned_length. simpl. lia.
  - apply parse_unsigned_length.
Qed.

Lemma obind_Some_inv {A B} (m : option A) (f : A → option B) b :
  m ≫= f = Some b → ∃ a, m = Some a ∧ f a = Some b.
Proof. destruct m as [a|]; [|done]. intros. by exists a. Qed.

Lemma parse_fuel_bound f :
  (∀ s j r, parse_value f s = Some (j, r) → fuel_bound parse_value s j r) ∧
  (∀ s l r, parse_elements f s = Some (l, r) → fuel_bound parse_elements s l r) ∧
  (∀ s acc m r, parse_members f s acc = Some (m, r) →
     fuel_bound (λ f s, parse_members f s acc) s m r).
Proof.
  induction f as [|f (IHv & IHe & IHm)]; [done|]. split_and!.
  - intros s j r. rewrite parse_value_S.
    pose proof (skip_ws_length s) as Hws.
    destruct (skip_ws s) as [|c r0] eqn:Hs; [done|]. simpl in Hws.
    assert (∀ (e : option (json * string)),
              (∀ f', parse_value (S f') s = e) → e = Some (j, r) →
              (String.length r < String.length (String c r0))%nat →
              fuel_bound parse_value s j r) as Hatom.
    { intros e He -> Hlen. exists 1%nat. simpl in Hlen. split; [lia|].
      intros [|f'] Hf'; [lia|]. apply He. }
    repeat case_bool_decide.
    + intros Hp. eapply Hatom; [|exact Hp|].
      * intros f'. rewrite parse_value_S, Hs. by chars.
      * apply obind_Some_inv in Hp as (r' & Hr'%strip_prefix_length & [= _ <-]).
        simpl in *. lia.
    + intros Hp. eapply Hatom; [|exact Hp|].
      * intros f'. rewrite parse_value_S, Hs. by chars.
      * apply obind_Some_inv in Hp as (r' & Hr'%strip_prefix_length & [= _ <-]).
        simpl in *. lia.
    + intros Hp. eapply Hatom; [|exact Hp|].
      * intros f'. rewrite parse_value_S, Hs. by chars.
      * apply obind_Some_inv in Hp as (r' & Hr'%strip_prefix_length & [= _ <-]).
        simpl in *. lia.
    + intros Hp. eapply Hatom; [|exact Hp|].
      * intros f'. rewrite parse_value_S, Hs. by chars.
      * apply obind_Some_inv in Hp as ([t r'] & Hr'%parse_string_body_length & [= _ <-]).
        simpl in *. lia.
    + pose proof (skip_ws_length r0) as Hws0.
      destruct (skip_ws r0) as [|c' r'] eqn:Hs0; [done|]. simpl in Hws0.
      case_bool_decide.
      * intros Hp. eapply Hatom; [|exact Hp|].
        -- intros f'. rewrite parse_value_S, Hs. chars. rewrite Hs0. by chars.
        -- injection Hp as _ <-. simpl. lia.
      * intros ([l r''] & (n & Hn & Hel)%IHe & [= <- <-])%obind_Some_inv.
        exists (S n). split; [lia|]. intros [|f'] Hf'; [lia|].
        rewrite parse_value_S, Hs. chars. rewrite Hs0. chars.
        by rewrite Hel by lia.
    + pose proof (skip_ws_length r0) as Hws0.
      destruct (skip_ws r0) as [|c' r'] eqn:Hs0; [done|]. simpl in Hws0.
      case_bool_decide.
      * intros Hp. eapply Hatom; [|exact Hp|].
        -- intros f'. rewrite parse_value_S, Hs. chars. rewrite Hs0. by chars.
        -- injection Hp as _ <-. simpl. lia.
      * intros ([m r''] & (n & Hn & Hel)%IHm & [= <- <-])%obind_Some_inv.
        exists (S n). split; [lia|]. intros [|f'] Hf'; [lia|].
        rewrite parse_value_S, Hs. chars. rewrite Hs0. chars.
        by rewrite Hel by lia.
    + intros Hp. eapply Hatom; [|exact Hp|].
      * intros f'. rewrite parse_value_S, Hs. by chars.
      * apply obind_Some_inv in Hp as ([x r'] & Hr'%parse_number_length & [= _ <-]).
        done.
  - intros s l r. rewrite parse_elements_S.
    intros ([v r1] & (nv & Hnv & Hv)%IHv & Hp)%obind_Some_inv.
    pose proof (skip_ws_length r1) as Hws.
    destruct (skip_ws r1) as [|c r'] eqn:Hs; [done|]. simpl in Hws.
    repeat case_bool_decide; try done.
    + apply obind_Some_inv in Hp as ([l' r''] & (ne & Hne & Hel)%IHe & [= <- <-]).
      exists (S (nv + ne)). split; [lia|]. intros [|f'] Hf'; [lia|].
      rewrite parse_elements_S, Hv by lia. simpl. rewrite Hs. chars.
      by rewrite Hel by lia.
    + injection Hp as <- <-.
      exists (S nv). split; [lia|]. intros [|f'] Hf'; [lia|].
      rewrite parse_elements_S, Hv by lia. simpl. rewrite Hs. by chars.
  - intros s acc m r. rewrite parse_members_S.
    pose proof (skip_ws_length s) as Hws.
    destruct (skip_ws s) as [|c r0] eqn:Hs; [done|]. simpl in Hws.
    case_bool_decide as Hq; [|done].
    intros ([k r1] & Hk & Hp)%obind_Some_inv.
    pose proof (parse_string_body_length _ _ _ Hk) as Hlk.
    pose proof (skip_ws_length r1) as Hws1.
    destruct (skip_ws r1) as [|c1 r2] eqn:Hs1; [done|]. simpl in Hws1.
    case_bool_decide as Hc1; [|done].
    apply obind_Some_inv in Hp as ([v r3] & (nv & Hnv & Hv)%IHv & Hp).
    cbv zeta in Hp.
    pose proof (skip_ws_length r3) as Hws3.
    destruct (skip_ws r3) as [|c3 r4] eqn:Hs3; [done|]. simpl in Hws3.
    repeat case_bool_decide; try done.
    + apply IHm in Hp as (nm & Hnm & Hm).
      exists (S (nv + nm)). split; [lia|]. intros [|f'] Hf'; [lia|].
      rewrite parse_members_S, Hs. chars. rewrite Hk. simpl. rewrite Hs1. chars.
      rewrite Hv by lia. simpl. rewrite Hs3. chars. by rewrite Hm by lia.
    + injection Hp as <- <-.
      exists (S nv). split; [lia|]. intros [|f'] Hf'; [lia|].
      rewrite parse_members_S, Hs. chars. rewrite Hk. simpl. rewrite Hs1. chars.
      rewrite Hv by lia. simpl. rewrite Hs3. by chars.
Qed.

(** The fuel [JSON.parse] takes is enough for every text: a text that
    the parser reads with some fuel, it reads with that of [JSON_parse]. *)
Theorem JSON_parse_fuel text fuel j rest :
  parse_value fuel text = Some (j, rest) →
  parse_value (S (String.length text)) text = Some (j, rest).
Proof.
  intros (n & Hn & Hp)%(proj1 (parse_fuel_bound fuel)). apply Hp. lia.
Qed.

(** ** The envelope on the wire *)

Section Envelope.

Import KafkaProducerService.

Lemma toJSON_Product p : toJSON (Product_object p) = Some (Product_json p).
Proof. reflexivity. Qed.

Lemma canonical_Product p :
  wf_number (Product.price p) → canonical (Product_json p).
Proof.
  intros Hwf. apply canonical_object. split_and!.
  - compute_done.
  - by repeat constructor.
  - repeat constructor; try done. simpl.
    by destruct (Product.price p) as [| |[]|].
Qed.

Lemma toJSON_envelope eventType payload now :
  toJSON (envelope eventType payload now) =
    Some (JObject
            (("type", JString eventType) ::
             match toJSON payload with
             | Some j => [("payload", j)]
             | None => []
             end ++
             [("timestamp", JString (toISOString now))])).
Proof. unfold envelope. simpl. by destruct (toJSON payload). Qed.

Lemma emitted_value_reads_back eventType payload now j :
  toJSON payload = Some j → canonical j →
  ∃ text,
    JSON_stringify "" (envelope eventType payload now) = Some text ∧
    JSON_parse text =
      Some (JObject [("type", JString eventType); ("payload", j);
                     ("timestamp", JString (toISOString now))]).
Proof.
  intros Hj Hcan.
  exists (print (JObject [("type", JString eventType); ("payload", j);
                          ("timestamp", JString (toISOString now))])).
  split.
  - unfold JSON_stringify. by rewrite toJSON_envelope, Hj.
  - apply JSON_parse_print. apply canonical_object. split_and!.
    + compute_done.
    + by repeat constructor.
    + by repeat constructor.
Qed.

(** C5, as stated, fails: the payload read back from the envelope of a
    product is not the product that was serialised, its two dates come
    back as strings. *)
Lemma envelope_roundtrip_counterexample :
  ∃ text event,
    JSON_stringify ""
      (envelope PRODUCT_EVENTS.CREATED (Product_object example_product)
         1700000001000) = Some text ∧
    JSON_parse text = Some event ∧
    of_json_opt (Get event "payload") ≠ Product_object example_product.
Proof.
  eexists _, _. split; [reflexivity|]. split; [vm_compute; reflexivity|].
  vm_compute. discriminate.
Qed.

(** C5, amended: serialising the envelope of a product as emit does and
    parsing the text as the consumer does gives an event whose type and
    timestamp are those of the envelope and whose payload has the id,
    name and description of the product, its price as JSON writes it
    (the number itself when it is finite and not a negative zero) and,
    in place of its two dates, their ISO-8601 strings. *)
Theorem envelope_roundtrip eventType (p : Product) now :
  wf_number (Product.price p) →
  ∃ text event,
    JSON_stringify "" (envelope eventType (Product_object p) now) = Some text ∧
    JSON_parse text = Some event ∧
    Get event "type" = Some (JString eventType) ∧
    Get event "timestamp" = Some (JString (toISOString now)) ∧
    Get event "payload" =
      Some (JObject [
        ("id", JString (Product.id p));
        ("name", JString (Product.name p));
        ("description", JString (Product.description p));
        ("price", match Product.price p with
                  | NaN | Infinity _ => JNull
                  | Zero _ => JNumber (Zero false)
                  | Finite _ _ _ => JNumber (Product.price p)
                  end);
        ("createdAt", JString (toISOString (Product.createdAt p)));
        ("updatedAt", JString (toISOString (Product.updatedAt p)))
      ]).
Proof.
  intros Hwf.
  destruct (emitted_value_reads_back eventType (Product_object p) now
              (Product_json p) (toJSON_Product p) (canonical_Product p Hwf))
    as (text & Htext & Hparse).
  eexists text, _. split; [done|]. split; [done|]. by split_and!.
Qed.

Lemma envelope_roundtrip_witness :
  ∃ text event,
    JSON_stringify ""
      (envelope PRODUCT_EVENTS.CREATED (Product_object example_product)
         1700000001000) = Some text ∧
    JSON_parse text = Some event ∧
    Get event "payload" =
      Some (JObject [
        ("id", JString "id-0");
        ("name", JString "Laptop");
        ("description", JString "Gaming laptop");
        ("price", JNumber (Finite false [d9; d9; d9; d9; d9] 3));
        ("createdAt", JString "2023-11-14T22:13:20.000Z");
        ("updatedAt", JString "2023-11-14T22:13:20.000Z")
      ]).
Proof.
  destruct (envelope_roundtrip PRODUCT_EVENTS.CREATED example_product
              1700000001000)
    as (text & event & H1 & H2 & _ & _ & H5).
  - simpl. by split_and!.
  - by exists text, event.
Defined.

End Envelope.

(** * Properties of the product store *)

Section Store.

Import ProductsService.

Implicit Types (w : World) (id : string) (p : Product).

Lemma findOne_eq w id :
  findOne id w =
    (match products w !! id with
     | Some p => Return p
     | None => Throw (not_found id)
     end, w).
Proof.
  unfold findOne, bind, products_get. by destruct (products w !! id).
Qed.

(** What [emit] does to the world. *)
Lemma emit_eq eventType payload w :
  KafkaProducerService.emit eventType payload w =
    (if broker_ack (env w) (sends w) then Return () else Throw KafkaJSError,
     {| env := env w; ticks := S (ticks w); uuids := uuids w;
        sends := S (sends w); products := products w;
        journal :=
          journal w ++
          [ProducerSend
             (sent_record (env w) eventType payload (clock (env w) (ticks w)))
             (broker_ack (env w) (sends w))];
        console := console w |}).
Proof. reflexivity. Qed.

Lemma create_eq dto w :
  let id := uuid (env w) (uuids w) in
  let now := clock (env w) (ticks w) in
  let p := Product.mk id (CreateProductDto.name dto)
             (CreateProductDto.description dto) (CreateProductDto.price dto)
             now now in
  let ok := broker_ack (env w) (sends w) in
  create dto w =
    (if ok then Return p else Throw KafkaJSError,
     {| env := env w; ticks := S (S (ticks w)); uuids := S (uuids w);
        sends := S (sends w); products := <[id := p]> (products w);
        journal :=
          (journal w ++ [MapSet id p]) ++
          [ProducerSend
             (sent_record (env w) PRODUCT_EVENTS.CREATED (Product_object p)
                (clock (env w) (S (ticks w)))) ok];
        console := console w |}).
Proof.
  intros. unfold create, bind. simpl.
  fold id now p ok. clearbody ok. destruct ok; reflexivity.
Qed.

Lemma update_eq id dto w existing :
  products w !! id = Some existing →
  let now := clock (env w) (ticks w) in
  let p := Product.mk (Product.id existing)
             (default (Product.name existing) (UpdateProductDto.name dto))
             (default (Product.description existing)
                (UpdateProductDto.description dto))
             (default (Product.price existing) (UpdateProductDto.price dto))
             (Product.createdAt existing) now in
  let ok := broker_ack (env w) (sends w) in
  update id dto w =
    (if ok then Return p else Throw KafkaJSError,
     {| env := env w; ticks := S (S (ticks w)); uuids := uuids w;
        sends := S (sends w); products := <[id := p]> (products w);
        journal :=
          (journal w ++ [MapSet id p]) ++
          [ProducerSend
             (sent_record (env w) PRODUCT_EVENTS.UPDATED (Product_object p)
                (clock (env w) (S (ticks w)))) ok];
        console := console w |}).
Proof.
  intros Hid. intros. unfold update, bind. rewrite findOne_eq, Hid. simpl.
  fold now ok.
  replace (Product.mk _ _ _ _ _ now) with p
    by (unfold p; by destruct dto as [[] [] []]).
  clearbody ok. destruct ok; reflexivity.
Qed.

Lemma remove_eq id w existing :
  products w !! id = Some existing →
  let ok := broker_ack (env w) (sends w) in
  remove id w =
    (if ok then Return () else Throw KafkaJSError,
     {| env := env w; ticks := S (ticks w); uuids := uuids w;
        sends := S (sends w); products := delete id (products w);
        journal :=
          (journal w ++ [MapDelete id]) ++
          [ProducerSend
             (sent_record (env w) PRODUCT_EVENTS.DELETED
                (Product_object existing) (clock (env w) (ticks w))) ok];
        console := console w |}).
Proof.
  intros Hid. intros. unfold remove, bind. rewrite findOne_eq, Hid. simpl.
  by rewrite emit_eq.
Qed.

Lemma update_absent id dto w :
  products w !! id = None → update id dto w = (Throw (not_found id), w).
Proof. intros Hid. unfold update, bind. by rewrite findOne_eq, Hid. Qed.

Lemma remove_absent id w :
  products w !! id = None → remove id w = (Throw (not_found id), w).
Proof. intros Hid. unfold remove, bind. by rewrite findOne_eq, Hid. Qed.

(** C10: for an id absent from the store, update and remove fail with
    NotFound before anything else happens: the world they leave is the
    world they found, so the mapping is unchanged and the journal has
    gained no write and no send. *)
Theorem update_remove_absent_no_effect w id dto :
  products w !! id = None →
  update id dto w = (Throw (not_found id), w) ∧
  remove id w = (Throw (not_found id), w).
Proof. intros Hid. split; [by apply update_absent | by apply remove_absent]. Qed.

Lemma update_remove_absent_no_effect_witness :
  let w := (create laptop (boot (example_env broker_up))).2 in
  update "nonexistent-id" cheaper w = (Throw (not_found "nonexistent-id"), w) ∧
  remove "nonexistent-id" w = (Throw (not_found "nonexistent-id"), w).
Proof.
  intros w. apply (update_remove_absent_no_effect w "nonexistent-id" cheaper).
  vm_compute. reflexivity.
Defined.

(** The world a request leaves does not depend on what its caller
    receives. *)
Lemma perform_snd op w :
  (perform op w).2 =
    match op with
    | OpCreate dto => (create dto w).2
    | OpUpdate id dto => (update id dto w).2
    | OpRemove id => (remove id w).2
    end.
Proof.
  destruct op as [dto|id dto|id]; unfold perform, bind.
  - by destruct (create dto w) as [[] ?].
  - by destruct (update id dto w) as [[] ?].
  - by destruct (remove id w) as [[] ?].
Qed.

(** The mapping after each request. *)
Lemma perform_products op w :
  products (perform op w).2 =
    match op with
    | OpCreate dto =>
        <[uuid (env w) (uuids w) :=
            Product.mk (uuid (env w) (uuids w)) (CreateProductDto.name dto)
              (CreateProductDto.description dto) (CreateProductDto.price dto)
              (clock (env w) (ticks w)) (clock (env w) (ticks w))]>
          (products w)
    | OpUpdate id dto =>
        match products w !! id with
        | Some e =>
            <[id :=
                Product.mk (Product.id e)
                  (default (Product.name e) (UpdateProductDto.name dto))
                  (default (Product.description e)
                     (UpdateProductDto.description dto))
                  (default (Product.price e) (UpdateProductDto.price dto))
                  (Product.createdAt e) (clock (env w) (ticks w))]>
              (products w)
        | None => products w
        end
    | OpRemove id => delete id (products w)
    end.
Proof.
  rewrite perform_snd. destruct op as [dto|id dto|id].
  - by pose proof (create_eq dto w) as ->.
  - destruct (products w !! id) as [e|] eqn:Hid.
    + by pose proof (update_eq id dto w e Hid) as ->.
    + by rewrite update_absent.
  - destruct (products w !! id) as [e|] eqn:Hid.
    + by pose proof (remove_eq id w e Hid) as ->.
    + rewrite remove_absent by done. simpl. symmetry. by apply delete_id.
Qed.

Lemma serve_keeps ops w id :
  is_Some (products w !! id) → OpRemove id ∉ ops →
  is_Some (products (serve ops w) !! id).
Proof.
  revert w. induction ops as [|op ops IH]; intros w Hin Hops; [done|].
  simpl. apply IH; [|set_solver].
  rewrite perform_products. destruct op as [dto|id' dto|id'].
  - rewrite lookup_insert. by case_decide.
  - destruct (products w !! id'); [|done].
    rewrite lookup_insert. by case_decide.
  - rewrite lookup_delete_ne; [done|]. intros ->. set_solver.
Qed.

(** C7: findOne fails with NotFound exactly when the id is absent, it
    never changes the world, and an id returned by create is found
    after any later requests among which there is no remove of it. *)
Theorem findOne_NotFound_iff_absent w id :
  ((∃ message, (findOne id w).1 = Throw (NotFoundException message)) ↔
     products w !! id = None) ∧
  (findOne id w).2 = w ∧
  (∀ dto p ops,
     (create dto w).1 = Return p → OpRemove (Product.id p) ∉ ops →
     ∃ q, (findOne (Product.id p) (serve ops (create dto w).2)).1 = Return q).
Proof.
  split_and!.
  - rewrite findOne_eq. simpl. destruct (products w !! id); split.
    + by intros [? [=]].
    + done.
    + done.
    + intros _. by eexists.
  - by rewrite findOne_eq.
  - intros dto p ops Hp Hops. rewrite findOne_eq. simpl.
    destruct (serve_keeps ops (create dto w).2 (Product.id p)) as [q ->];
      [|done|by eexists].
    pose proof (create_eq dto w) as Heq. simpl in Heq.
    rewrite Heq in Hp |- *. simpl in *.
    destruct (broker_ack (env w) (sends w)); [|done].
    injection Hp as <-. simpl. rewrite lookup_insert_eq. by eexists.
Qed.

Lemma findOne_NotFound_iff_absent_witness :
  ∃ q, (findOne "id-0"
          (serve [OpUpdate "id-0" cheaper; OpRemove "id-1"]
             (create laptop (boot (example_env broker_up))).2)).1 = Return q.
Proof.
  destruct (findOne_NotFound_iff_absent (boot (example_env broker_up)) "id-0")
    as (_ & _ & H).
  refine (H laptop _ [OpUpdate "id-0" cheaper; OpRemove "id-1"] eq_refl _).
  compute_done.
Defined.




(** C4, as stated, fails: the stored product is replaced, yet the call
    does not return the updated product when the send that follows is
    not acknowledged. *)
Lemma update_counterexample :
  let w := (create laptop (boot (example_env (broker_down_after 1)))).2 in
  let r := update "id-0" cheaper w in
  is_Some (products w !! "id-0") ∧
  r.1 = Throw KafkaJSError ∧
  ∃ p, products r.2 !! "id-0" = Some p ∧ r.1 ≠ Return p.
Proof.
  split; [by eexists|]. split; [reflexivity|].
  eexists. split; [reflexivity|]. discriminate.
Qed.

(** C4, amended: for an id present in the store, update builds a product
    with exactly the fields of the partial update applied, the omitted
    fields, the id and createdAt unchanged and updatedAt the reading of
    the clock, stores it under the id in place of the former one, and
    returns it provided the publish that follows succeeds (the error of
    the send is what the caller receives otherwise); for an absent id it
    fails with NotFound. *)
Theorem update_applies_partial w id dto :
  match products w !! id with
  | Some e =>
      ∃ p,
        Product.id p = Product.id e ∧
        Product.createdAt p = Product.createdAt e ∧
        Product.updatedAt p = clock (env w) (ticks w) ∧
        Product.name p =
          match UpdateProductDto.name dto with
          | Some name => name
          | None => Product.name e
          end ∧
        Product.description p =
          match UpdateProductDto.description dto with
          | Some description => description
          | None => Product.description e
          end ∧
        Product.price p =
          match UpdateProductDto.price dto with
          | Some price => price
          | None => Product.price e
          end ∧
        products (update id dto w).2 = <[id := p]> (products w) ∧
        (update id dto w).1 =
          (if broker_ack (env w) (sends w) then Return p
           else Throw KafkaJSError)
  | None => (update id dto w).1 = Throw (not_found id)
  end.
Proof.
  destruct (products w !! id) as [e|] eqn:He.
  - pose proof (update_eq id dto w e He) as ->.
    exists (Product.mk (Product.id e)
              (default (Product.name e) (UpdateProductDto.name dto))
              (default (Product.description e)
                 (UpdateProductDto.description dto))
              (default (Product.price e) (UpdateProductDto.price dto))
              (Product.createdAt e) (clock (env w) (ticks w))).
    split_and!; try reflexivity; by destruct dto as [[] [] []].
  - by rewrite update_absent.
Qed.

(** C2: a create, and an update or remove of an id that is present,
    make exactly one send, after the write: the world [mid] in which
    emit starts already has the mutation in its mapping, the journal
    gains the write followed by one send and nothing else, and the
    payload of the send is the product as stored by the write (for
    remove, the product found under the id before the deletion). *)
Theorem mutation_then_one_publish w :
  let ok := broker_ack (env w) (sends w) in
  (∀ dto, ∃ p mid,
     products mid = <[Product.id p := p]> (products w) ∧
     journal mid = journal w ++ [MapSet (Product.id p) p] ∧
     (create dto w).2 =
       (KafkaProducerService.emit PRODUCT_EVENTS.CREATED (Product_object p) mid).2 ∧
     journal (create dto w).2 =
       journal w ++
       [MapSet (Product.id p) p;
        ProducerSend
          (sent_record (env w) PRODUCT_EVENTS.CREATED (Product_object p)
             (clock (env mid) (ticks mid))) ok] ∧
     sends (create dto w).2 = S (sends w) ∧
     products (create dto w).2 !! Product.id p = Some p) ∧
  (∀ id dto, is_Some (products w !! id) → ∃ p mid,
     products mid = <[id := p]> (products w) ∧
     journal mid = journal w ++ [MapSet id p] ∧
     (update id dto w).2 =
       (KafkaProducerService.emit PRODUCT_EVENTS.UPDATED (Product_object p) mid).2 ∧
     journal (update id dto w).2 =
       journal w ++
       [MapSet id p;
        ProducerSend
          (sent_record (env w) PRODUCT_EVENTS.UPDATED (Product_object p)
             (clock (env mid) (ticks mid))) ok] ∧
     sends (update id dto w).2 = S (sends w) ∧
     products (update id dto w).2 !! id = Some p) ∧
  (∀ id e, products w !! id = Some e → ∃ mid,
     products mid = delete id (products w) ∧
     journal mid = journal w ++ [MapDelete id] ∧
     (remove id w).2 =
       (KafkaProducerService.emit PRODUCT_EVENTS.DELETED (Product_object e) mid).2 ∧
     journal (remove id w).2 =
       journal w ++
       [MapDelete id;
        ProducerSend
          (sent_record (env w) PRODUCT_EVENTS.DELETED (Product_object e)
             (clock (env mid) (ticks mid))) ok] ∧
     sends (remove id w).2 = S (sends w) ∧
     products (remove id w).2 !! id = None).
Proof.
  intros ok. split_and!.
  - intros dto. pose proof (create_eq dto w) as Heq. simpl in Heq.
    rewrite Heq. clear Heq. simpl.
    eexists (Product.mk _ _ _ _ _ _),
      {| env := env w; ticks := S (ticks w); uuids := S (uuids w);
         sends := sends w; journal := _; console := console w |}.
    simpl. split_and!; try reflexivity.
    + by rewrite <-app_assoc.
    + by rewrite lookup_insert_eq.
  - intros id dto [e He]. pose proof (update_eq id dto w e He) as Heq.
    simpl in Heq. rewrite Heq. clear Heq. simpl.
    eexists (Product.mk _ _ _ _ _ _),
      {| env := env w; ticks := S (ticks w); uuids := uuids w;
         sends := sends w; journal := _; console := console w |}.
    simpl. split_and!; try reflexivity.
    + by rewrite <-app_assoc.
    + by rewrite lookup_insert_eq.
  - intros id e He. pose proof (remove_eq id w e He) as Heq.
    simpl in Heq. rewrite Heq. clear Heq. simpl.
    eexists {| env := env w; ticks := ticks w; uuids := uuids w;
               sends := sends w; journal := _; console := console w |}.
    simpl. split_and!; try reflexivity.
    + by rewrite <-app_assoc.
    + by rewrite lookup_delete_eq.
Qed.

Lemma mutation_then_one_publish_witness :
  let w := (create laptop (boot (example_env broker_up))).2 in
  ∃ e mid,
    products w !! "id-0" = Some e ∧
    products mid = delete "id-0" (products w) ∧
    journal (remove "id-0" w).2 =
      journal w ++
      [MapDelete "id-0";
       ProducerSend
         (sent_record (env w) PRODUCT_EVENTS.DELETED (Product_object e)
            (clock (env mid) (ticks mid))) true].
Proof.
  intros w.
  destruct (mutation_then_one_publish w) as (_ & _ & H).
  destruct (H "id-0" _ eq_refl) as (mid & H1 & _ & _ & H4 & _).
  eexists _, mid. split; [reflexivity|]. split; [exact H1|exact H4].
Defined.

(** *** Invariants of the reachable worlds *)

Lemma latest_write_snoc h e id p :
  latest_write (h ++ [e]) id p ↔
  e = MapSet id p ∨
  (latest_write h id p ∧ e ≠ MapDelete id ∧ ∀ q, e ≠ MapSet id q).
Proof.
  split.
  - intros (h1 & h2 & Heq & Hlater).
    destruct h2 as [|e' h2 _] using rev_ind.
    + apply app_inj_tail in Heq as [_ ->]. by left.
    + rewrite app_comm_cons, app_assoc in Heq.
      apply app_inj_tail in Heq as [-> ->]. right.
      split; [|apply Hlater; set_solver].
      exists h1, h2. split; [done|]. intros e Hin. apply Hlater. set_solver.
  - intros [->|((h1 & h2 & -> & Hlater) & Hd & Hs)].
    + exists h, []. split; [done|]. intros e Hin. set_solver.
    + exists h1, (h2 ++ [e]). split; [by rewrite <-app_assoc|].
      intros e' [Hin| ->%list_elem_of_singleton]%elem_of_app; [by apply Hlater|done].
Qed.

Lemma latest_write_nil id p : ¬ latest_write [] id p.
Proof. intros (h1 & h2 & Heq & _). by destruct h1. Qed.

Lemma latest_write_send h r ok id p :
  latest_write (h ++ [ProducerSend r ok]) id p ↔ latest_write h id p.
Proof. rewrite latest_write_snoc. naive_solver. Qed.

Lemma latest_write_set h id' p' id p :
  latest_write (h ++ [MapSet id' p']) id p ↔
  (id = id' ∧ p = p') ∨ (id ≠ id' ∧ latest_write h id p).
Proof. rewrite latest_write_snoc. naive_solver. Qed.

Lemma latest_write_delete h id' id p :
  latest_write (h ++ [MapDelete id']) id p ↔ id ≠ id' ∧ latest_write h id p.
Proof. rewrite latest_write_snoc. naive_solver. Qed.


Lemma boot_inv E : store_inv (boot E).
Proof.
  split_and!; simpl.
  - intros id p. rewrite lookup_empty. split; [done|].
    intros []%latest_write_nil.
  - intros id p. by rewrite lookup_empty.
  - intros id p. by rewrite lookup_empty.
  - intros id. rewrite lookup_empty. by intros [? ?].
Qed.

Lemma perform_env op w : env (perform op w).2 = env w.
Proof.
  rewrite perform_snd. destruct op as [dto|id dto|id].
  - by pose proof (create_eq dto w) as ->.
  - destruct (products w !! id) as [e|] eqn:Hid.
    + by pose proof (update_eq id dto w e Hid) as ->.
    + by rewrite update_absent.
  - destruct (products w !! id) as [e|] eqn:Hid.
    + by pose proof (remove_eq id w e Hid) as ->.
    + by rewrite remove_absent.
Qed.

Lemma serve_env ops w : env (serve ops w) = env w.
Proof.
  revert w. induction ops as [|op ops IH]; intros w; [done|].
  simpl. by rewrite IH, perform_env.
Qed.

(** A write followed by a send keeps the invariant when the product
    written carries the id it is written under, an id that was generated,
    and timestamps that are readings of the clock taken in order. *)
Lemma store_inv_write w w' id p r ok :
  store_inv w →
  env w' = env w → (ticks w ≤ ticks w')%nat → (uuids w ≤ uuids w')%nat →
  products w' = <[id := p]> (products w) →
  journal w' = (journal w ++ [MapSet id p]) ++ [ProducerSend r ok] →
  Product.id p = id →
  (∃ i j, (i ≤ j < ticks w')%nat ∧
     Product.createdAt p = clock (env w) i ∧
     Product.updatedAt p = clock (env w) j) →
  (∃ k, (k < uuids w')%nat ∧ id = uuid (env w) k) →
  store_inv w'.
Proof.
  intros (Hlatest & Hkey & Htimes & Hids) Henv Hticks Huuids Hprod Hjour
    Hid Hp Hk.
  unfold store_inv. rewrite Henv, Hprod, Hjour. split_and!.
  - intros id' q. rewrite latest_write_send, latest_write_set, lookup_insert.
    case_decide; [naive_solver|]. rewrite Hlatest. naive_solver.
  - intros id' q. rewrite lookup_insert. case_decide; [naive_solver|].
    apply Hkey.
  - intros id' q. rewrite lookup_insert. case_decide; [naive_solver|].
    intros (i & j & Hij & Hc & Hu)%Htimes. exists i, j. split; [lia|done].
  - intros id'. rewrite lookup_insert. case_decide; [naive_solver|].
    intros (k & Hlt & Heq)%Hids. exists k. split; [lia|done].
Qed.

Lemma store_inv_delete w w' id r ok :
  store_inv w →
  env w' = env w → (ticks w ≤ ticks w')%nat → (uuids w ≤ uuids w')%nat →
  products w' = delete id (products w) →
  journal w' = (journal w ++ [MapDelete id]) ++ [ProducerSend r ok] →
  store_inv w'.
Proof.
  intros (Hlatest & Hkey & Htimes & Hids) Henv Hticks Huuids Hprod Hjour.
  unfold store_inv. rewrite Henv, Hprod, Hjour. split_and!.
  - intros id' q. rewrite latest_write_send, latest_write_delete, lookup_delete.
    case_decide; [naive_solver|]. rewrite Hlatest. naive_solver.
  - intros id' q. rewrite lookup_delete. case_decide; [done|]. apply Hkey.
  - intros id' q. rewrite lookup_delete. case_decide; [done|].
    intros (i & j & Hij & Hc & Hu)%Htimes. exists i, j. split; [lia|done].
  - intros id'. rewrite lookup_delete. case_decide; [by intros [? ?]|].
    intros (k & Hlt & Heq)%Hids. exists k. split; [lia|done].
Qed.

Lemma perform_inv op w : store_inv w → store_inv (perform op w).2.
Proof.
  intros Hw. rewrite perform_snd. destruct op as [dto|id dto|id].
  - pose proof (create_eq dto w) as ->.
    eapply store_inv_write; [done|simpl..]; try done; try lia.
    + exists (ticks w), (ticks w). split; [lia|done].
    + exists (uuids w). split; [lia|done].
  - destruct (products w !! id) as [e|] eqn:Hid;
      [|by rewrite update_absent].
    pose proof (update_eq id dto w e Hid) as ->.
    pose proof Hw as (Hlatest & Hkey & Htimes & Hids).
    eapply store_inv_write; [done|simpl..]; try done; try lia.
    + simpl. by eapply Hkey.
    + destruct (Htimes _ _ Hid) as (i & j & Hij & Hc & Hu).
      exists i, (ticks w). split; [lia|done].
    + destruct (Hids id) as (k & Hlt & Heq); [by eexists|].
      exists k. split; [lia|done].
  - destruct (products w !! id) as [e|] eqn:Hid;
      [|by rewrite remove_absent].
    pose proof (remove_eq id w e Hid) as ->.
    eapply store_inv_delete; [done|simpl..]; try done; lia.
Qed.

Lemma serve_inv ops w : store_inv w → store_inv (serve ops w).
Proof.
  revert w. induction ops as [|op ops IH]; intros w Hw; [done|].
  simpl. by apply IH, perform_inv.
Qed.

(** C9: in every world reached from the empty store by create, update
    and remove under a clock that never goes back, a stored product has
    updatedAt >= createdAt and carries the id it is stored under; create
    stores a product with createdAt = updatedAt, and update keeps the id
    and createdAt of the product it replaces and does not move updatedAt
    back. *)
Theorem timestamps_ordered_id_fixed E ops :
  (∀ i j, (i ≤ j)%nat → clock E i ≤ clock E j) →
  let w := serve ops (boot E) in
  (∀ id p, products w !! id = Some p →
     Product.createdAt p ≤ Product.updatedAt p ∧ Product.id p = id) ∧
  (∀ dto, ∃ p,
     products (create dto w).2 !! uuid E (uuids w) = Some p ∧
     Product.id p = uuid E (uuids w) ∧
     Product.createdAt p = Product.updatedAt p) ∧
  (∀ id dto e, products w !! id = Some e → ∃ p,
     products (update id dto w).2 !! id = Some p ∧
     Product.id p = Product.id e ∧
     Product.createdAt p = Product.createdAt e ∧
     Product.updatedAt e ≤ Product.updatedAt p).
Proof.
  intros Hmono w.
  pose proof (serve_inv ops (boot E) (boot_inv E)) as (_ & Hkey & Htimes & _).
  fold w in Hkey, Htimes.
  assert (env w = E) as HE by apply serve_env.
  rewrite HE in Htimes. split_and!.
  - intros id p Hp. split; [|by eapply Hkey].
    destruct (Htimes _ _ Hp) as (i & j & Hij & -> & ->). apply Hmono. lia.
  - intros dto. pose proof (create_eq dto w) as Heq. simpl in Heq.
    rewrite Heq, HE. simpl. rewrite lookup_insert_eq. by eexists.
  - intros id dto e He. pose proof (update_eq id dto w e He) as Heq.
    simpl in Heq. rewrite Heq. simpl. rewrite lookup_insert_eq.
    eexists. split; [done|]. simpl. split_and!; [done|done|].
    destruct (Htimes _ _ He) as (i & j & Hij & _ & ->).
    rewrite HE. apply Hmono. lia.
Qed.

Lemma timestamps_ordered_id_fixed_witness :
  let w := serve [OpCreate laptop; OpUpdate "id-0" cheaper]
             (boot (example_env broker_up)) in
  ∃ p, products w !! "id-0" = Some p ∧
       Product.createdAt p ≤ Product.updatedAt p ∧ Product.id p = "id-0".
Proof.
  intros w.
  assert (∀ i j, (i ≤ j)%nat →
            clock (example_env broker_up) i ≤ clock (example_env broker_up) j)
    as Hmono by (intros i j Hij; simpl; lia).
  destruct (timestamps_ordered_id_fixed (example_env broker_up)
              [OpCreate laptop; OpUpdate "id-0" cheaper] Hmono) as (H & _).
  eexists. split; [reflexivity|]. apply H. reflexivity.
Defined.


End Store.

(** * Properties of the producer and of the consumer *)

Section Producer.

Import KafkaProducerService.

(** C8: emit makes one send, of a record with exactly one message for
    the topic; the key of the message is the event type and its value is
    [JSON.stringify] of the object with the type, the payload and the
    ISO-8601 string of the clock reading taken by emit. When the payload
    is canonical JSON data the value is a text that parses to exactly
    that object. *)
Theorem emit_sends_one_keyed_message eventType payload w :
  let now := clock (env w) (ticks w) in
  let value :=
    JSON_stringify ""
      (VObject [("type", VString eventType); ("payload", payload);
                ("timestamp", VString (toISOString now))]) in
  journal (emit eventType payload w).2 =
    journal w ++
    [ProducerSend
       {| topic := TOPIC_of (env w);
          messages := [{| key := eventType; value := value |}] |}
       (broker_ack (env w) (sends w))] ∧
  sends (emit eventType payload w).2 = S (sends w) ∧
  products (emit eventType payload w).2 = products w ∧
  (∀ j, toJSON payload = Some j → canonical j →
     ∃ text,
       value = Some text ∧
       JSON_parse text =
         Some (JObject [("type", JString eventType); ("payload", j);
                        ("timestamp", JString (toISOString now))])).
Proof.
  intros now value. rewrite emit_eq. simpl. split_and!; try reflexivity.
  intros j Hj Hcan. by apply emitted_value_reads_back.
Qed.

Lemma emit_sends_one_keyed_message_witness :
  ∃ text,
    JSON_stringify ""
      (VObject [("type", VString PRODUCT_EVENTS.UPDATED);
                ("payload", Product_object example_product);
                ("timestamp", VString (toISOString 1700000000000))]) =
      Some text ∧
    JSON_parse text =
      Some (JObject [("type", JString PRODUCT_EVENTS.UPDATED);
                     ("payload", Product_json example_product);
                     ("timestamp", JString (toISOString 1700000000000))]).
Proof.
  destruct (emit_sends_one_keyed_message PRODUCT_EVENTS.UPDATED
              (Product_object example_product) (boot (example_env broker_up)))
    as (_ & _ & _ & H).
  apply (H (Product_json example_product)).
  - reflexivity.
  - apply canonical_Product. simpl. by split_and!.
Defined.

End Producer.

Section Consumer.

Import KafkaConsumerService.

Lemma logged_nil w : logged w [] = w.
Proof. destruct w. unfold logged. simpl. by rewrite app_nil_r. Qed.

Lemma logged_app w a b : logged (logged w a) b = logged w (a ++ b).
Proof. unfold logged. simpl. by rewrite app_assoc. Qed.

Lemma console_log_logged args w :
  console_log args w = (Return (), logged w [ConsoleLog args]).
Proof. reflexivity. Qed.

Lemma log_event_logged (line : string) (pay : option string) w :
  bind (console_log [Some line]) (λ _, console_log [Some "  Payload:"; pay]) w =
    (Return (), logged w [ConsoleLog [Some line];
                          ConsoleLog [Some "  Payload:"; pay]]).
Proof. unfold bind. by rewrite !console_log_logged, logged_app. Qed.

(** The handler returns for every message, and writes [entries_of]. *)
Lemma handleMessage_eq payload w :
  handleMessage payload w = (Return (), logged w (entries_of payload)).
Proof.
  unfold handleMessage, entries_of.
  destruct (message_value payload) as [[|c value]|].
  - by rewrite logged_nil.
  - unfold try_catch. unfold bind at 1. unfold lift_parse at 1.
    destruct (JSON_parse (String c value)) as [event|]; [|reflexivity].
    unfold ret at 1. unfold bind at 1. unfold event_header.
    destruct event as [|b|x|s|l|m]; [reflexivity|..].
    all: unfold lift_parse at 1; unfold ret at 1; unfold bind at 1.
    all: destruct (ToString_opt (Get _ "type")) as [type|]; [|reflexivity].
    all: unfold lift_parse at 1; unfold ret at 1; unfold bind at 1.
    all: destruct (ToString_opt (Get _ "timestamp")) as [timestamp|];
      [|reflexivity].
    all: unfold lift_parse at 1; unfold ret at 1.
    all: by rewrite log_event_logged.
  - by rewrite logged_nil.
Qed.






End Consumer.

(** * Further properties *)

(** ** The list of brokers *)

Section Configuration.

Lemma String_split_cons sep s :
  ∃ (x : string) (l : list string), String_split sep s = x :: l.
Proof.
  destruct s as [|c s]; simpl; [by eexists _, _|].
  case_bool_decide; [by eexists _, _|].
  destruct (String_split sep s); by eexists _, _.
Qed.

Lemma join_split sep s : join (String sep "") (String_split sep s) = s.
Proof.
  induction s as [|c s IH]; [done|]. simpl.
  destruct (String_split_cons sep s) as (x & l & Hs). rewrite Hs in IH |- *.
  case_bool_decide as Hc.
  - subst c.
    change (join (String sep "") ("" :: x :: l))
      with ("" +:+ String sep "" +:+ join (String sep "") (x :: l)).
    by rewrite IH.
  - destruct l as [|y l]; simpl in *; by rewrite <-IH.
Qed.

Lemma split_piece sep x :
  occurs sep x = false → String_split sep x = [x].
Proof.
  induction x as [|c x IH]; [done|]. simpl.
  intros [Hc Hx%IH]%orb_false_iff. rewrite bool_decide_eq_false in Hc.
  rewrite bool_decide_false by done. by rewrite Hx.
Qed.

Lemma split_piece_sep sep x rest :
  occurs sep x = false →
  String_split sep (x +:+ String sep "" +:+ rest) =
    x :: String_split sep rest.
Proof.
  induction x as [|c x IH].
  - intros _. simpl. by rewrite bool_decide_true.
  - simpl. intros [Hc Hx%IH]%orb_false_iff.
    rewrite bool_decide_eq_false in Hc.
    change (String c x +:+ ?t) with (String c (x +:+ t)). simpl.
    rewrite bool_decide_false by done. by rewrite Hx.
Qed.

Lemma split_join sep l :
  l ≠ [] → Forall (λ x, occurs sep x = false) l →
  String_split sep (join (String sep "") l) = l.
Proof.
  intros Hne Hall. induction Hall as [|x l Hx Hall IH]; [done|].
  clear Hne. destruct l as [|y l]; [by apply split_piece|].
  change (join (String sep "") (x :: y :: l))
    with (x +:+ String sep "" +:+ join (String sep "") (y :: l)).
  rewrite split_piece_sep by done. by rewrite IH.
Qed.

Lemma split_no_sep sep s :
  Forall (λ x, occurs sep x = false) (String_split sep s).
Proof.
  induction s as [|c s IH]; [by repeat constructor|]. simpl.
  case_bool_decide as Hc; [by constructor|].
  destruct (String_split sep s) as [|x l].
  - repeat constructor. simpl. by rewrite bool_decide_false.
  - inversion IH; subst. constructor; [|done]. simpl.
    rewrite bool_decide_false; [done|]. by intros ->.
Qed.

(** X1: the list of brokers is never empty, no broker of the list
    contains a comma, and joined with commas the list gives back the
    configured string, which is localhost:9092 when KAFKA_BROKERS is
    unset or empty; conversely, a non-empty list of comma-free addresses
    written with commas in KAFKA_BROKERS is the list obtained. *)
Theorem BROKERS_split_join KAFKA_BROKERS :
  let configured :=
    match KAFKA_BROKERS with
    | None | Some "" => "localhost:9092"
    | Some v => v
    end in
  BROKERS KAFKA_BROKERS ≠ [] ∧
  join "," (BROKERS KAFKA_BROKERS) = configured ∧
  Forall (λ b, occurs "," b = false) (BROKERS KAFKA_BROKERS) ∧
  (∀ l, l ≠ [] → Forall (λ b, occurs "," b = false) l → join "," l ≠ "" →
     BROKERS (Some (join "," l)) = l).
Proof.
  intros configured. unfold BROKERS. fold configured. split_and!.
  - by destruct (String_split_cons "," configured) as (x & l & ->).
  - apply join_split.
  - apply split_no_sep.
  - intros l Hne Hall Hjoin.
    destruct (join "," l) as [|c s] eqn:Hj; [done|].
    rewrite <-Hj. by apply split_join.
Qed.

End Configuration.

(** ** Sequences of requests *)

Section Requests.

Import ProductsService.

Implicit Types (w : World) (id : string) (p : Product).

Lemma perform_fst op w :
  (perform op w).1 =
    match op with
    | OpCreate dto =>
        match (create dto w).1 with
        | Return p => Return (ReplyProduct p)
        | Throw e => Throw e
        end
    | OpUpdate id dto =>
        match (update id dto w).1 with
        | Return p => Return (ReplyProduct p)
        | Throw e => Throw e
        end
    | OpRemove id =>
        match (remove id w).1 with
        | Return _ => Return ReplyVoid
        | Throw e => Throw e
        end
    end.
Proof.
  destruct op as [dto|id dto|id]; unfold perform, bind.
  - by destruct (create dto w) as [[] ?].
  - by destruct (update id dto w) as [[] ?].
  - by destruct (remove id w) as [[] ?].
Qed.

Lemma perform_uuids op w :
  (uuids w ≤ uuids (perform op w).2 ≤ S (uuids w))%nat.
Proof.
  rewrite perform_snd. destruct op as [dto|id dto|id].
  - pose proof (create_eq dto w) as ->. simpl. lia.
  - destruct (products w !! id) as [e|] eqn:Hid.
    + pose proof (update_eq id dto w e Hid) as ->. simpl. lia.
    + rewrite update_absent by done. simpl. lia.
  - destruct (products w !! id) as [e|] eqn:Hid.
    + pose proof (remove_eq id w e Hid) as ->. simpl. lia.
    + rewrite remove_absent by done. simpl. lia.
Qed.

(** X2: a sequence of requests none of which updates or removes [id],
    and during which no create is given [id] by the generator, leaves
    what is stored under [id] as it was: the same product, or nothing. *)
Theorem untargeted_product_unchanged ops w id :
  Forall (λ op, target op ≠ Some id) ops →
  (∀ k, (uuids w ≤ k < uuids w + length ops)%nat → uuid (env w) k ≠ id) →
  products (serve ops w) !! id = products w !! id.
Proof.
  revert w. induction ops as [|op ops IH]; intros w Hops Hfresh; [done|].
  inversion Hops as [|? ? Hop Hrest]; subst. simpl in *.
  rewrite IH; [|done|].
  - rewrite perform_products. destruct op as [dto|id' dto|id']; simpl in Hop.
    + rewrite lookup_insert_ne; [done|]. apply Hfresh. lia.
    + destruct (products w !! id'); [|done].
      rewrite lookup_insert_ne; [done|]. congruence.
    + rewrite lookup_delete_ne; [done|]. congruence.
  - intros k Hk. rewrite perform_env. apply Hfresh.
    pose proof (perform_uuids op w). lia.
Qed.

Lemma untargeted_product_unchanged_witness :
  products (serve [OpCreate laptop; OpUpdate "id-1" cheaper; OpRemove "id-1"]
              (create laptop (boot (example_env broker_up))).2) !! "id-0" =
  products (create laptop (boot (example_env broker_up))).2 !! "id-0".
Proof.
  apply untargeted_product_unchanged.
  - repeat constructor; simpl; congruence.
  - intros k Hk. simpl in Hk.
    destruct k as [|[|[|[|k]]]]; try lia; vm_compute; discriminate.
Defined.

(** X3: when the generator gives an id that is not in the store, a
    create followed by the removal of that id leaves the mapping exactly
    as it was before the create, whatever the broker answers, and the
    two sends carry the same product, first as created then as deleted. *)
Theorem create_then_remove_restores w dto :
  let id := uuid (env w) (uuids w) in
  products w !! id = None →
  let w1 := (create dto w).2 in
  let w2 := (remove id w1).2 in
  products w2 = products w ∧
  ∃ p now1 now2 ok1 ok2,
    products w1 !! id = Some p ∧
    journal w2 =
      journal w ++
      [MapSet id p;
       ProducerSend
         (sent_record (env w) PRODUCT_EVENTS.CREATED (Product_object p) now1)
         ok1;
       MapDelete id;
       ProducerSend
         (sent_record (env w) PRODUCT_EVENTS.DELETED (Product_object p) now2)
         ok2].
Proof.
  intros id Hid w1 w2. subst w2 w1.
  pose proof (create_eq dto w) as Hc. simpl in Hc. fold id in Hc.
  rewrite Hc. simpl.
  erewrite remove_eq; [|simpl; apply lookup_insert_eq]. simpl. split.
  - by rewrite delete_insert_id.
  - eexists _, _, _, _, _. rewrite lookup_insert_eq. split; [done|].
    by rewrite <-!app_assoc.
Qed.

Lemma create_then_remove_restores_witness :
  let w := boot (example_env broker_down) in
  products (remove "id-0" (create laptop w).2).2 = products w.
Proof.
  intros w. apply (create_then_remove_restores w laptop). reflexivity.
Defined.

(** X4: two updates of a stored product, one after the other, leave the
    store as the single update with the fields of the second where it
    has them and those of the first elsewhere, up to updatedAt, which is
    the reading of the clock taken by the second update. *)
Theorem update_twice_is_merged_update w id first second :
  is_Some (products w !! id) →
  let twice := (update id second (update id first w).2).2 in
  let once := (update id (UpdateProductDto_then first second) w).2 in
  but_updatedAt <$> products twice = but_updatedAt <$> products once ∧
  ∃ p, products twice !! id = Some p ∧
       Product.updatedAt p = clock (env w) (S (S (ticks w))).
Proof.
  intros [e He] twice once. subst twice once.
  pose proof (update_eq id first w e He) as H1. simpl in H1. rewrite H1.
  erewrite (update_eq id second); [|simpl; apply lookup_insert_eq].
  pose proof (update_eq id (UpdateProductDto_then first second) w e He) as H2.
  simpl in H2. rewrite H2. simpl. split.
  - rewrite insert_insert_eq, !fmap_insert. f_equal.
    unfold but_updatedAt. simpl.
    by destruct first as [[] [] []], second as [[] [] []].
  - rewrite lookup_insert_eq. by eexists.
Qed.

Lemma update_twice_is_merged_update_witness :
  let w := (create laptop (boot (example_env broker_up))).2 in
  let rename := {| UpdateProductDto.name := Some "Notebook";
                   UpdateProductDto.description := None;
                   UpdateProductDto.price := None |} in
  but_updatedAt <$>
    products (update "id-0" cheaper (update "id-0" rename w).2).2 =
  but_updatedAt <$>
    products (update "id-0" (UpdateProductDto_then rename cheaper) w).2.
Proof.
  intros w rename.
  apply (update_twice_is_merged_update w "id-0" rename cheaper).
  by eexists.
Defined.

(** X5: after any sequence of requests from the empty store, findOne
    and findAll agree: findOne returns [p] for [id] exactly when [p] is
    in the list of findAll and has that id, and it fails with NotFound
    exactly when no product of the list has that id. *)
Theorem findOne_agrees_with_findAll E ops :
  let w := serve ops (boot E) in
  ∃ l,
    (findAll w).1 = Return l ∧
    (∀ id p, (findOne id w).1 = Return p ↔ p ∈ l ∧ Product.id p = id) ∧
    (∀ id, (findOne id w).1 = Throw (not_found id) ↔ id ∉ Product.id <$> l).
Proof.
  intros w.
  pose proof (serve_inv ops (boot E) (boot_inv E)) as (_ & Hkey & _ & _).
  fold w in Hkey.
  exists ((map_to_list (products w)).*2). split; [done|].
  assert (∀ p, p ∈ (map_to_list (products w)).*2 ↔
               products w !! Product.id p = Some p) as Hin.
  { intros p. rewrite list_elem_of_fmap. split.
    - intros ([id q] & -> & Hq%elem_of_map_to_list). simpl.
      by rewrite (Hkey _ _ Hq).
    - intros Hp. exists (Product.id p, p). split; [done|].
      by apply elem_of_map_to_list. }
  split.
  - intros id p. rewrite findOne_eq, Hin. simpl. split.
    + destruct (products w !! id) as [q|] eqn:Hq; [|done].
      intros [= ->]. by rewrite (Hkey _ _ Hq).
    + intros [Hp <-]. by rewrite Hp.
  - intros id. rewrite findOne_eq, list_elem_of_fmap. simpl. split.
    + destruct (products w !! id) as [q|] eqn:Hq; [done|].
      intros _ (p & -> & Hp%Hin). congruence.
    + destruct (products w !! id) as [q|] eqn:Hq; [|done].
      intros []. exists q. split; [by rewrite (Hkey _ _ Hq)|].
      apply Hin. by rewrite (Hkey _ _ Hq).
Qed.

(** X6: after any sequence of requests from the empty store, a create
    stores its product under the id the generator gives, stamped with
    the reading of the clock. When that id differs from all the ids
    generated before, it is not in the store, the list of findAll grows
    by exactly one product and keeps all those it had; when the id is
    already in the store, the product stored under it is replaced and
    the list keeps its length. *)
Theorem create_adds_one_or_replaces E ops dto :
  let w := serve ops (boot E) in
  let id := uuid E (uuids w) in
  ∃ p l l',
    products (create dto w).2 !! id = Some p ∧
    Product.createdAt p = clock E (ticks w) ∧
    (findAll w).1 = Return l ∧
    (findAll (create dto w).2).1 = Return l' ∧
    ((∀ i, (i < uuids w)%nat → uuid E i ≠ id) →
       products w !! id = None ∧ length l' = S (length l) ∧
       ∀ q, q ∈ l → q ∈ l') ∧
    (is_Some (products w !! id) → length l' = length l).
Proof.
  intros w id.
  pose proof (serve_inv ops (boot E) (boot_inv E)) as (_ & _ & _ & Hids).
  fold w in Hids.
  assert (env w = E) as HE by apply serve_env. rewrite HE in Hids.
  pose proof (create_eq dto w) as Hc. simpl in Hc. rewrite HE in Hc.
  fold id in Hc. rewrite Hc. simpl. rewrite lookup_insert_eq.
  eexists _, _, _. split; [done|]. split; [done|]. split; [done|].
  split; [done|]. rewrite !length_fmap, !length_map_to_list. split.
  - intros Hfresh.
    assert (products w !! id = None) as Hnone.
    { destruct (products w !! id) as [e|] eqn:He; [|done].
      destruct (Hids id) as (k & Hk & Heq); [by eexists|].
      by destruct (Hfresh k Hk). }
    split; [done|]. split; [by rewrite map_size_insert_None|].
    intros q. rewrite !list_elem_of_fmap.
    intros ([id' q'] & -> & Hq%elem_of_map_to_list). exists (id', q').
    split; [done|]. apply elem_of_map_to_list.
    rewrite lookup_insert_ne; [done|]. congruence.
  - intros [e He]. by erewrite map_size_insert_Some.
Qed.

Lemma create_adds_one_or_replaces_witness :
  let w := serve [OpCreate laptop; OpCreate laptop]
             (boot (example_env broker_up)) in
  ∃ l l',
    (findAll w).1 = Return l ∧
    (findAll (create laptop w).2).1 = Return l' ∧
    length l' = S (length l).
Proof.
  intros w.
  destruct (create_adds_one_or_replaces (example_env broker_up)
              [OpCreate laptop; OpCreate laptop] laptop)
    as (p & l & l' & _ & _ & Hl & Hl' & Hfresh & _).
  exists l, l'. split; [exact Hl|]. split; [exact Hl'|].
  apply Hfresh. intros i Hi.
  destruct i as [|[|i]]; [vm_compute; discriminate..|simpl in Hi; lia].
Defined.

(** X12: the reply of a request tells what it did. A request that
    returns has made one mutation and one send, which the broker
    acknowledged; one that fails with the error of the send has made the
    mutation all the same, and the send; one that fails with NotFound is
    an update or a removal of an id that is not in the store, names that
    id in its message and has left the world untouched. A request fails
    in no other way. *)
Theorem reply_tells_effect op w :
  let w' := (perform op w).2 in
  match (perform op w).1 with
  | Return _ =>
      ∃ m r, is_mutation m ∧ journal w' = journal w ++ [m; ProducerSend r true]
  | Throw KafkaJSError =>
      ∃ m r, is_mutation m ∧ journal w' = journal w ++ [m; ProducerSend r false]
  | Throw (NotFoundException message) =>
      w' = w ∧
      ∃ id, target op = Some id ∧ products w !! id = None ∧
            message = "Product " +:+ id +:+ " not found"
  | Throw _ => False
  end.
Proof.
  intros w'. subst w'. rewrite perform_snd, perform_fst.
  destruct op as [dto|id dto|id].
  - pose proof (create_eq dto w) as ->. simpl.
    destruct (broker_ack (env w) (sends w)); eexists _, _;
      (split; [|by rewrite <-app_assoc]); done.
  - destruct (products w !! id) as [e|] eqn:Hid.
    + pose proof (update_eq id dto w e Hid) as ->. simpl.
      destruct (broker_ack (env w) (sends w)); eexists _, _;
        (split; [|by rewrite <-app_assoc]); done.
    + rewrite update_absent by done. simpl. split; [done|]. by exists id.
  - destruct (products w !! id) as [e|] eqn:Hid.
    + pose proof (remove_eq id w e Hid) as ->. simpl.
      destruct (broker_ack (env w) (sends w)); eexists _, _;
        (split; [|by rewrite <-app_assoc]); done.
    + rewrite remove_absent by done. simpl. split; [done|]. by exists id.
Qed.

(** *** The broker has no say in the store *)

Lemma attempts_app h h' : attempts (h ++ h') = attempts h ++ attempts h'.
Proof. apply omap_app. Qed.

Lemma perform_same_but_broker op w w' :
  same_but_broker w w' →
  same_but_broker (perform op w).2 (perform op w').2 ∧
  ((perform op w').1 = (perform op w).1 ∨
   (perform op w').1 = Throw KafkaJSError ∨
   (perform op w).1 = Throw KafkaJSError).
Proof.
  intros ([acks HE] & Ht & Hu & Hs & Hp & Ha).
  assert (∀ k, clock (env w') k = clock (env w) k) as Hclock
    by (by rewrite HE).
  assert (∀ k, uuid (env w') k = uuid (env w) k) as Huuid by (by rewrite HE).
  assert (∀ ty pl now, sent_record (env w') ty pl now =
                       sent_record (env w) ty pl now) as Hrec.
  { intros. unfold sent_record, TOPIC_of. by rewrite HE. }
  rewrite !perform_snd, !perform_fst. destruct op as [dto|id dto|id].
  - pose proof (create_eq dto w) as ->. pose proof (create_eq dto w') as ->.
    simpl. rewrite Hclock, Huuid, Ht, Hu, Hs, Hp, Hrec. split.
    + split_and!; simpl; try done; try congruence.
      * by exists acks.
      * rewrite !attempts_app, Ha. simpl. by rewrite ?Hclock, ?Ht.
    + destruct (broker_ack (env w') _), (broker_ack (env w) _); auto.
  - destruct (products w !! id) as [e|] eqn:Hid.
    + pose proof (update_eq id dto w e Hid) as ->.
      rewrite <-Hp in Hid. pose proof (update_eq id dto w' e Hid) as ->.
      simpl. rewrite Hclock, Ht, Hu, Hs, Hp, Hrec. split.
      * split_and!; simpl; try done; try congruence.
        -- by exists acks.
        -- rewrite !attempts_app, Ha. simpl. by rewrite ?Hclock, ?Ht.
      * destruct (broker_ack (env w') _), (broker_ack (env w) _); auto.
    + rewrite (update_absent id dto w) by done.
      rewrite (update_absent id dto w') by congruence. simpl. split; [|auto].
      split_and!; try done. by exists acks.
  - destruct (products w !! id) as [e|] eqn:Hid.
    + pose proof (remove_eq id w e Hid) as ->.
      rewrite <-Hp in Hid. pose proof (remove_eq id w' e Hid) as ->.
      simpl. rewrite Hclock, Ht, Hu, Hs, Hp, Hrec. split.
      * split_and!; simpl; try done; try congruence.
        -- by exists acks.
        -- by rewrite !attempts_app, Ha.
      * destruct (broker_ack (env w') _), (broker_ack (env w) _); auto.
    + rewrite (remove_absent id w) by done.
      rewrite (remove_absent id w') by congruence. simpl. split; [|auto].
      split_and!; try done. by exists acks.
Qed.

(** X7: the broker has no say in the store. The same requests served
    with another broker leave the same mapping and hand the same records
    to the producer, in the same order; the callers receive the same
    replies except where, with one of the two brokers, the reply is the
    error of the send. *)
Theorem store_independent_of_broker E acks ops :
  let w := serve ops (boot E) in
  let w' := serve ops (boot (with_broker E acks)) in
  products w' = products w ∧
  attempts (journal w') = attempts (journal w) ∧
  Forall2 (λ r r', r' = r ∨ r' = Throw KafkaJSError ∨ r = Throw KafkaJSError)
    (replies ops (boot E)) (replies ops (boot (with_broker E acks))).
Proof.
  intros w w'. subst w w'.
  assert (same_but_broker (boot E) (boot (with_broker E acks))) as Hsame.
  { split_and!; try done. by exists acks. }
  revert Hsame. generalize (boot E), (boot (with_broker E acks)).
  induction ops as [|op ops IH]; intros w w' Hsame.
  - destruct Hsame as (_ & _ & _ & _ & Hp & Ha). by split_and!.
  - destruct (perform_same_but_broker op w w' Hsame) as [Hnext Hreply].
    destruct (IH _ _ Hnext) as (Hp & Ha & Hr). simpl. split_and!; try done.
    by constructor.
Qed.

(** *** The shape of a history *)





End Requests.

(** ** The event stream *)

Section Stream.

Import ProductsService.

Implicit Types (w : World) (id : string) (p : Product).

Lemma perform_prices_wf op w :
  wf_op op → prices_wf w → prices_wf (perform op w).2.
Proof.
  intros Hop Hw id p. rewrite perform_products.
  destruct op as [dto|id' dto|id']; simpl in Hop.
  - rewrite lookup_insert. case_decide; [|apply Hw]. by intros [= <-].
  - destruct (products w !! id') as [e|] eqn:He; [|apply Hw].
    rewrite lookup_insert. case_decide; [|apply Hw]. intros [= <-]. simpl.
    destruct (UpdateProductDto.price dto); [done|]. by eapply Hw.
  - rewrite lookup_delete. case_decide; [done|]. apply Hw.
Qed.

Lemma decoded_app h h' : decoded (h ++ h') = decoded h ++ decoded h'.
Proof. apply bind_app. Qed.

Lemma replay_app view a b :
  replay view (a ++ b) = replay view a ≫= λ view', replay view' b.
Proof.
  revert view. induction a as [|[[[ty id] pl]|] a IH]; intros view; try done.
  simpl. repeat case_bool_decide; by rewrite ?IH.
Qed.

(** The message sent for a product reads as the event type, the id of
    the product and the product as JSON data. *)
Lemma decode_sent_record eventType p now :
  wf_number (Product.price p) →
  decode
    {| key := eventType;
       value :=
         JSON_stringify ""
           (KafkaProducerService.envelope eventType (Product_object p) now) |} =
    Some (eventType, Product.id p, Product_json p).
Proof.
  intros Hwf.
  destruct (emitted_value_reads_back eventType (Product_object p) now
              (Product_json p) (toJSON_Product p) (canonical_Product p Hwf))
    as (text & Htext & Hparse).
  unfold decode. cbn [value]. rewrite Htext. cbn [mbind option_bind].
  by rewrite Hparse.
Qed.

Lemma replay_inv_write w w' id p eventType now ok :
  replay_inv w →
  products w' = <[id := p]> (products w) →
  journal w' =
    (journal w ++ [MapSet id p]) ++
    [ProducerSend (sent_record (env w) eventType (Product_object p) now) ok] →
  wf_number (Product.price p) → Product.id p = id →
  eventType = PRODUCT_EVENTS.CREATED ∨
    (eventType = PRODUCT_EVENTS.UPDATED ∧ is_Some (products w !! id)) →
  replay_inv w'.
Proof.
  unfold replay_inv. intros Hw Hprod Hjour Hwf Hid Hty.
  rewrite Hjour, Hprod, !decoded_app, !replay_app, Hw. simpl.
  rewrite decode_sent_record by done. rewrite Hid.
  destruct Hty as [->|[-> Hsome]].
  - by rewrite fmap_insert.
  - rewrite bool_decide_false by done. rewrite bool_decide_true by done.
    rewrite bool_decide_true; [by rewrite fmap_insert|].
    by rewrite lookup_fmap, fmap_is_Some.
Qed.

Lemma replay_inv_delete w w' id p now ok :
  replay_inv w →
  products w' = delete id (products w) →
  journal w' =
    (journal w ++ [MapDelete id]) ++
    [ProducerSend
       (sent_record (env w) PRODUCT_EVENTS.DELETED (Product_object p) now) ok] →
  wf_number (Product.price p) → Product.id p = id →
  products w !! id = Some p →
  replay_inv w'.
Proof.
  unfold replay_inv. intros Hw Hprod Hjour Hwf Hid Hp.
  rewrite Hjour, Hprod, !decoded_app, !replay_app, Hw. simpl.
  rewrite decode_sent_record by done. rewrite Hid.
  rewrite bool_decide_false by done. rewrite bool_decide_false by done.
  rewrite bool_decide_true by done.
  rewrite bool_decide_true; [by rewrite fmap_delete|].
  by rewrite lookup_fmap, Hp.
Qed.

Lemma perform_replay_inv op w :
  wf_op op → store_inv w → prices_wf w → replay_inv w →
  replay_inv (perform op w).2.
Proof.
  intros Hop (_ & Hkey & _ & _) Hwf Hw. rewrite perform_snd.
  destruct op as [dto|id dto|id]; simpl in Hop.
  - pose proof (create_eq dto w) as ->.
    eapply replay_inv_write; [done|reflexivity|reflexivity|done|done|by left].
  - destruct (products w !! id) as [e|] eqn:Hid;
      [|by rewrite update_absent].
    pose proof (update_eq id dto w e Hid) as ->.
    eapply replay_inv_write; [done|reflexivity|reflexivity|simpl..].
    + destruct (UpdateProductDto.price dto); [done|]. by eapply Hwf.
    + by eapply Hkey.
    + right. by split.
  - destruct (products w !! id) as [e|] eqn:Hid;
      [|by rewrite remove_absent].
    pose proof (remove_eq id w e Hid) as ->.
    eapply replay_inv_delete; [done|reflexivity|reflexivity|..]; try done.
    + by eapply Hwf.
    + by eapply Hkey.
Qed.

(** X9: the events are a faithful log of the store. Reading the
    messages handed to the producer during any sequence of requests from
    the empty store, in order, and applying them to an empty copy
    (created: record the product; updated: replace it; deleted: drop it)
    never meets an unreadable message, an update or a deletion of an id
    that is not recorded, or a deletion that carries another state than
    the one recorded, and ends with exactly the products of the store,
    as JSON data. *)
Theorem events_replay_to_store E ops :
  Forall wf_op ops →
  let w := serve ops (boot E) in
  replay ∅ (decoded (journal w)) = Some (Product_json <$> products w).
Proof.
  intros Hops w. subst w.
  assert (store_inv (boot E) ∧ prices_wf (boot E) ∧ replay_inv (boot E))
    as Hboot.
  { split; [apply boot_inv|]. split.
    - intros id p. simpl. by rewrite lookup_empty.
    - unfold replay_inv. simpl. by rewrite fmap_empty. }
  revert Hboot. generalize (boot E).
  induction Hops as [|op ops Hop Hops IH]; intros w (Hs & Hp & Hr); [done|].
  simpl. apply IH. split_and!.
  - by apply perform_inv.
  - by apply perform_prices_wf.
  - by apply perform_replay_inv.
Qed.

Lemma events_replay_to_store_witness :
  let w := serve [OpCreate laptop; OpUpdate "id-0" cheaper; OpCreate laptop;
                  OpRemove "id-1"] (boot (example_env broker_down)) in
  replay ∅ (decoded (journal w)) = Some (Product_json <$> products w).
Proof.
  intros w. apply events_replay_to_store.
  repeat first [apply Forall_nil_2 | apply Forall_cons_2]; simpl; try done.
Defined.

Lemma created_ids_app a b :
  created_ids (a ++ b) = created_ids a ++ created_ids b.
Proof. apply omap_app. Qed.

Lemma perform_created_inv op w :
  wf_op op → prices_wf w → created_inv w → created_inv (perform op w).2.
Proof.
  unfold created_inv. intros Hop Hwf Hw. rewrite perform_snd.
  destruct op as [dto|id dto|id]; simpl in Hop.
  - pose proof (create_eq dto w) as ->. cbn [snd journal uuids env].
    rewrite !decoded_app, !created_ids_app, Hw, seq_S, fmap_app. simpl.
    rewrite decode_sent_record by done. simpl. by rewrite app_nil_r.
  - destruct (products w !! id) as [e|] eqn:Hid;
      [|by rewrite update_absent].
    pose proof (update_eq id dto w e Hid) as ->. simpl.
    rewrite !decoded_app, !created_ids_app, Hw. simpl.
    rewrite decode_sent_record; [by rewrite !app_nil_r|]. simpl.
    destruct (UpdateProductDto.price dto); [done|]. by eapply Hwf.
  - destruct (products w !! id) as [e|] eqn:Hid;
      [|by rewrite remove_absent].
    pose proof (remove_eq id w e Hid) as ->. simpl.
    rewrite !decoded_app, !created_ids_app, Hw. simpl.
    rewrite decode_sent_record; [by rewrite !app_nil_r|]. by eapply Hwf.
Qed.

(** X13: the created events of any sequence of requests from the empty
    store carry exactly the ids drawn from the generator, one event per
    draw and in the order of the draws; so, when the generator has not
    repeated itself, no id is announced as created twice, and with X9 an
    id that was deleted never comes back in a later event. *)
Theorem created_events_are_the_generated_ids E ops :
  Forall wf_op ops →
  let w := serve ops (boot E) in
  created_ids (decoded (journal w)) = uuid E <$> seq 0 (uuids w) ∧
  ((∀ i j, (i < j < uuids w)%nat → uuid E i ≠ uuid E j) →
     NoDup (created_ids (decoded (journal w)))).
Proof.
  intros Hops w.
  assert (created_ids (decoded (journal w)) = uuid E <$> seq 0 (uuids w))
    as Hids.
  { assert (env w = E) as HE by apply serve_env.
    enough (created_inv w) as Hw by (by rewrite <-HE).
    subst w. clear HE.
    assert (prices_wf (boot E) ∧ created_inv (boot E)) as Hboot.
    { split; [|done]. intros id p. simpl. by rewrite lookup_empty. }
    revert Hboot. generalize (boot E).
    induction Hops as [|op ops Hop Hops IH]; intros w [Hp Hc]; [done|].
    simpl. apply IH. split.
    - by apply perform_prices_wf.
    - by apply perform_created_inv. }
  split; [done|]. intros Hfresh. rewrite Hids.
  apply NoDup_fmap_2_strong; [|apply NoDup_seq].
  intros i j [_ Hi]%elem_of_seq [_ Hj]%elem_of_seq Heq.
  destruct (Nat.lt_trichotomy i j) as [Hlt|[->|Hlt]]; [|done|].
  - destruct (Hfresh i j); [lia|done].
  - destruct (Hfresh j i); [lia|done].
Qed.

Lemma created_events_are_the_generated_ids_witness :
  let w := serve [OpCreate laptop; OpRemove "id-0"; OpCreate laptop]
             (boot (example_env broker_up)) in
  NoDup (created_ids (decoded (journal w))).
Proof.
  intros w.
  destruct (created_events_are_the_generated_ids (example_env broker_up)
              [OpCreate laptop; OpRemove "id-0"; OpCreate laptop]) as [_ H].
  - repeat first [apply Forall_nil_2 | apply Forall_cons_2]; simpl; try done.
  - apply H. intros i j Hij.
    change (uuids _) with 2%nat in Hij.
    destruct i as [|[|i]], j as [|[|j]]; try (exfalso; lia).
    vm_compute. discriminate.
Defined.







(** X11: a value that is a JSON text of something else than an object is
    not reported as a failure, except null: for a number, a string, a
    boolean or an array the consumer logs an event whose type, timestamp
    and payload are undefined; for null, reading the type throws and the
    failure is logged with the TypeError. *)
Theorem handleMessage_json_not_an_object payload value event w :
  KafkaConsumerService.message_value payload = Some value →
  JSON_parse value = Some event →
  (∀ m, event ≠ JObject m) →
  KafkaConsumerService.handleMessage payload w =
    (Return (),
     logged w match event with
              | JNull => [failure TypeError]
              | _ => undefined_event payload
              end).
Proof.
  intros Hv Hparse Hobj. rewrite handleMessage_eq. f_equal. f_equal.
  unfold entries_of. rewrite Hv. destruct value as [|c value]; [done|].
  rewrite Hparse. destruct event as [|b|x|s|l|m]; try done.
  by destruct (Hobj m).
Qed.

Lemma handleMessage_json_not_an_object_witness :
  let payload :=
    {| KafkaConsumerService.topic := "product-events";
       KafkaConsumerService.partition := 3;
       KafkaConsumerService.message_value := Some "[1, 2]" |} in
  let w := boot (example_env broker_up) in
  KafkaConsumerService.handleMessage payload w =
    (Return (),
     logged w
       [ConsoleLog [Some "[Kafka] product-events/3 | undefined | undefined"];
        ConsoleLog [Some "  Payload:"; None]]).
Proof.
  intros payload w.
  apply (handleMessage_json_not_an_object payload "[1, 2]"
           (JArray [JNumber (Finite false [d1] 1);
                    JNumber (Finite false [d2] 1)])).
  - reflexivity.
  - vm_compute. reflexivity.
  - discriminate.
Defined.

End Stream.

(** * The scenario of the spec *)

(** Create a product, lower its price, remove it: three sends, keyed
    created, updated and deleted in that order, and an empty store. *)
Example scenario :
  let w := serve [OpCreate laptop; OpUpdate "id-0" cheaper; OpRemove "id-0"]
             (boot (example_env broker_up)) in
  sent_keys (journal w) =
    ["product.created"; "product.updated"; "product.deleted"] ∧
  (ProductsService.findAll w).1 = Return [] ∧
  (ProductsService.findOne "id-0" w).1 = Throw (not_found "id-0").
Proof. split_and!; vm_compute; reflexivity. Qed.
